(** * ClipsMaker: the engagement-segment selection core of [clips.py]

    A shallow embedding of the decision logic of [YouTubeToShortsPipeline]:
    [_combine_segments], [_analyze_text_engagement],
    [_analyze_audio_engagement], [_calculate_engagement_score] and
    [analyze_engagement], followed by the properties the specification
    states about them.

    Conventions of the embedding.
    - Python floats are modelled by exact rationals [Q]; rounding, infinities
      and NaN are outside the model.  Equality of numbers is [Qeq] ([==]).
    - A Python [str] is the list of its Unicode code points.
    - A Python [dict] with a fixed set of keys is a record; a key that may be
      absent ([segment.get('source', 'unknown')]) is an [option] field.
    - The numeric and linguistic libraries the code calls (TextBlob's
      polarity, [np.sqrt], librosa's spectral centroid and zero-crossing
      rate) are variables of a section: the code is verified for every
      implementation of them, under the hypotheses each theorem lists. *)

From Stdlib Require Import String Ascii.
From Stdlib Require Import QArith Qminmax Qabs ZArith NArith List Bool Lia Lqa.
From Stdlib Require Import Sorted.
Import ListNotations.
Open Scope Q_scope.

(** ** Python numbers *)

Module PyNum.

(** [min(a, b)]: the first argument unless the second is strictly smaller. *)
Definition py_min (a b : Q) : Q := if Qle_bool a b then a else b.

(** [int(x)] on a float: truncation towards zero. *)
Definition py_int (x : Q) : Z := Z.quot (Qnum x) (Zpos (Qden x)).

(** An [int] used in float arithmetic. *)
Definition of_int (n : Z) : Q := inject_Z n.
Definition of_len (n : nat) : Q := inject_Z (Z.of_nat n).

(** [clamp(x, lo, hi)] in the words of the specification. *)
Definition clamp (x lo hi : Q) : Q := Qmax lo (Qmin x hi).

(** [sum(xs)] over floats. *)
Definition py_sum (xs : list Q) : Q := fold_left Qplus xs 0.

End PyNum.
Import PyNum.

(** ** Python exceptions *)

Inductive exception : Type :=
| ZeroDivisionError.

Inductive result (A : Type) : Type :=
| Ok (value : A)
| Raise (e : exception).
Arguments Ok {A} value.
Arguments Raise {A} e.

Definition bind {A B : Type} (r : result A) (k : A -> result B) : result B :=
  match r with
  | Ok a => k a
  | Raise e => Raise e
  end.

Notation "x <- r ;; k" := (bind r (fun x => k))
  (at level 61, r at next level, right associativity).

(** [a / b] on numbers raises [ZeroDivisionError] when [b] is zero. *)
Definition py_div (a b : Q) : result Q :=
  if Qeq_bool b 0 then Raise ZeroDivisionError else Ok (a / b).

(** ** Python strings *)

Module PyStr.

Definition pystr : Type := list N.

(** An ASCII literal as a Python string. *)
Definition str (s : string) : pystr := map N_of_ascii (list_ascii_of_string s).

Fixpoint eqb (s t : pystr) : bool :=
  match s, t with
  | [], [] => true
  | c :: s', d :: t' => N.eqb c d && eqb s' t'
  | _, _ => false
  end.

(** The code points Python treats as whitespace in [str.strip()] and
    [str.split()] without arguments. *)
Definition isspace (c : N) : bool :=
  ((9 <=? c) && (c <=? 13) || (28 <=? c) && (c <=? 32)
   || (c =? 133) || (c =? 160) || (c =? 5760)
   || (8192 <=? c) && (c <=? 8202)
   || (c =? 8232) || (c =? 8233) || (c =? 8239) || (c =? 8287)
   || (c =? 12288))%N.

Fixpoint lstrip (s : pystr) : pystr :=
  match s with
  | [] => []
  | c :: s' => if isspace c then lstrip s' else s
  end.

Definition rstrip (s : pystr) : pystr := rev (lstrip (rev s)).

Definition strip (s : pystr) : pystr := rstrip (lstrip s).

(** [s.split()]: the maximal runs of non-whitespace code points.  [cur] is
    the run being read. *)
Fixpoint split_from (cur : pystr) (s : pystr) : list pystr :=
  match s with
  | [] => match cur with [] => [] | _ => [cur] end
  | c :: s' =>
      if isspace c
      then match cur with
           | [] => split_from [] s'
           | _ => cur :: split_from [] s'
           end
      else split_from (cur ++ [c]) s'
  end.

Definition split (s : pystr) : list pystr := split_from [] s.

(** [s.lower()].  Only the ASCII letters are mapped; Python also lowercases
    letters outside ASCII, but no code point outside ASCII lowercases to one
    of the letters h, a, l, o, m or to an emoji, so the occurrence counts the
    scorer takes on the result are the same. *)
Definition lower_char (c : N) : N :=
  if ((65 <=? c) && (c <=? 90))%N then (c + 32)%N else c.

Definition lower (s : pystr) : pystr := map lower_char s.

Fixpoint startswith (s prefix : pystr) : bool :=
  match prefix, s with
  | [], _ => true
  | p :: prefix', c :: s' => N.eqb p c && startswith s' prefix'
  | _ :: _, [] => false
  end.

(** [s.count(sub)] for a non-empty [sub]: occurrences are counted from left
    to right and a counted occurrence is consumed, so the next one starts
    after its end.  [skip] is the number of code points of the last counted
    occurrence that are still to be passed. *)
Fixpoint count_from (skip : nat) (s sub : pystr) : nat :=
  match s with
  | [] => O
  | _ :: s' =>
      match skip with
      | S k => count_from k s' sub
      | O => if startswith s sub
             then S (count_from (length sub - 1) s' sub)
             else count_from 0 s' sub
      end
  end.

Definition count (s sub : pystr) : nat := count_from 0 s sub.

(** The number of positions of [s] at which [sub] occurs, overlapping
    occurrences included: the count the specification words describe. *)
Fixpoint count_overlapping (s sub : pystr) : nat :=
  match s with
  | [] => O
  | _ :: s' =>
      ((if startswith s sub then 1 else 0) + count_overlapping s' sub)%nat
  end.

(** No occurrence of [sub] starts inside another one. *)
Definition unbordered (sub : pystr) : Prop :=
  forall s i, startswith s sub = true -> (0 < i < length sub)%nat ->
              startswith (skipn i s) sub = false.

(** [re.findall(c, s)] for a pattern matching the single code point [c]. *)
Definition findall_char (c : N) (s : pystr) : list N :=
  filter (N.eqb c) s.

End PyStr.
Import PyStr.

(** ** Transcript segments and the segment merger *)

(** A segment dictionary.  Whisper's segments carry ['id'], their index in
    the transcription, with ['start'], ['end'] and ['text']; the
    dictionaries [_combine_segments] builds carry ['start'], ['end'],
    ['text'] and ['source'], and no ['id'].  The other keys of a Whisper
    segment (['seek'], ['tokens'], ...) are read nowhere in the program.
    They could only tell apart two dictionaries that have everything else
    equal, ['id'] included. *)
Record Segment : Type := mkSegment {
  seg_id : option Z;
  seg_start : Q;
  seg_end : Q;
  seg_text : pystr;
  seg_source : option pystr
}.

Definition option_eqb {A : Type} (eq : A -> A -> bool) (x y : option A)
  : bool :=
  match x, y with
  | None, None => true
  | Some a, Some b => eq a b
  | _, _ => false
  end.

(** [d1 == d2] on dictionaries: same keys with equal values. *)
Definition segment_eqb (a b : Segment) : bool :=
  option_eqb Z.eqb (seg_id a) (seg_id b)
  && Qeq_bool (seg_start a) (seg_start b)
  && Qeq_bool (seg_end a) (seg_end b)
  && PyStr.eqb (seg_text a) (seg_text b)
  && option_eqb PyStr.eqb (seg_source a) (seg_source b).

(** The local variables of [_combine_segments]. *)
Record merge_state : Type := mkMerge {
  combined : list Segment;
  current_segments : list Segment;
  current_start : option Q;
  current_text : pystr
}.

Definition merge_init : merge_state :=
  {| combined := []; current_segments := []; current_start := None;
     current_text := [] |}.

Section Merge.

Variable segments : list Segment.
Variable target_duration : Q.

(** [current_start] after the assignment under [if current_start is None]. *)
Definition group_start (st : merge_state) (segment : Segment) : Q :=
  match current_start st with
  | None => seg_start segment
  | Some s => s
  end.

Definition group_duration (st : merge_state) (segment : Segment) : Q :=
  seg_end segment - group_start st segment.

(** [segments[-1]]; the loop body only runs when [segments] is not empty. *)
Definition last_segment (segment : Segment) : Segment := last segments segment.

(** The condition of the outer [if]: the running group is closed. *)
Definition group_closes (st : merge_state) (segment : Segment) : bool :=
  Qle_bool target_duration (group_duration st segment)
  || segment_eqb segment (last_segment segment).

Definition group_text (st : merge_state) (segment : Segment) : pystr :=
  current_text st ++ str " " ++ strip (seg_text segment).

Definition group_candidate (st : merge_state) (segment : Segment) : Segment :=
  {| seg_id := None;
     seg_start := group_start st segment;
     seg_end := seg_end segment;
     seg_text := strip (group_text st segment);
     seg_source := Some (str "combined") |}.

(** One iteration of [for segment in segments]. *)
Definition merge_step (st : merge_state) (segment : Segment) : merge_state :=
  if group_closes st segment then
    {| combined :=
         if Qle_bool 10 (group_duration st segment)
         then combined st ++ [group_candidate st segment]
         else combined st;
       current_segments := [];
       current_start := None;
       current_text := [] |}
  else
    {| combined := combined st;
       current_segments := current_segments st ++ [segment];
       current_start := Some (group_start st segment);
       current_text := group_text st segment |}.

Definition merge_loop (st : merge_state) (todo : list Segment) : merge_state :=
  fold_left merge_step todo st.


End Merge.

Definition _combine_segments (segments : list Segment) (target_duration : Q)
  : list Segment :=
  combined (merge_loop segments target_duration merge_init segments).



(** What every emitted candidate satisfies. *)
Definition emitted (c : Segment) : Prop :=
  10 <= seg_end c - seg_start c /\ seg_source c = Some (str "combined").

(** ** Python lists *)

Module PyList.

(** [l[i:j]] with integer bounds: a negative bound counts from the end, and
    both are then clipped to [0, len(l)]. *)
Definition slice_bound (len i : Z) : Z :=
  let i := if (i <? 0)%Z then (i + len)%Z else i in
  if (i <? 0)%Z then 0%Z else if (len <? i)%Z then len else i.

Definition py_slice {A : Type} (l : list A) (i j : Z) : list A :=
  let len := Z.of_nat (length l) in
  let lo := Z.to_nat (slice_bound len i) in
  let hi := Z.to_nat (slice_bound len j) in
  firstn (hi - lo) (skipn lo l).

Section Sort.

Variable A : Type.
Variable key : A -> Q.

(** [x] goes in front of the first element whose key is not larger than its
    own: in front of its ties, behind every strictly larger key. *)
Fixpoint insert_desc (x : A) (l : list A) : list A :=
  match l with
  | [] => [x]
  | y :: l' =>
      if Qle_bool (key y) (key x) then x :: l else y :: insert_desc x l'
  end.

(** [l.sort(key=key, reverse=True)]: the keys end in non-increasing order
    and, the sort being stable, elements with equal keys keep their order.
    Inserting from the right is one such sort. *)
Fixpoint sort_reverse (l : list A) : list A :=
  match l with
  | [] => []
  | x :: l' => insert_desc x (sort_reverse l')
  end.

(** Non-increasing keys. *)
Definition desc (a b : A) : Prop := key b <= key a.

(** The elements of [l] whose key is [s], in the order [l] has them. *)
Definition ties (s : Q) (l : list A) : list A :=
  filter (fun x => Qeq_bool (key x) s) l.

End Sort.
Arguments insert_desc {A} key x l.
Arguments sort_reverse {A} key l.
Arguments desc {A} key a b.
Arguments ties {A} key s l.

End PyList.
Import PyList.

(** ** The scorers *)

(** The dictionaries [analyze_engagement] appends to its result. *)
Record Scored : Type := mkScored {
  start_time : Q;
  end_time : Q;
  text : pystr;
  engagement_score : Q;
  duration : Q;
  source : pystr
}.

(** A transcription result: [transcript_data.get('segments', [])] reads the
    only key the selector uses, which may be absent. *)
Record Transcript : Type := mkTranscript {
  segments_key : option (list Segment)
}.

(** [transcript_data.get('segments', [])]. *)
Definition get_segments (transcript_data : Transcript) : list Segment :=
  match segments_key transcript_data with
  | Some l => l
  | None => []
  end.



Definition laughter_patterns : list pystr :=
  [str "haha"; str "lol"; str "lmao"; [128514%N]; [128516%N]; [128518%N]].

Section Scorers.

(** [TextBlob(text).sentiment.polarity]. *)
Variable polarity : pystr -> Q.
(** [np.sqrt]. *)
Variable np_sqrt : Q -> Q.
(** [librosa.feature.spectral_centroid(y=..., sr=...)[0]], one value per
    frame. *)
Variable spectral_centroid : list Q -> Z -> list Q.
(** [librosa.feature.zero_crossing_rate(...)[0]], one value per frame. *)
Variable zero_crossing_rate : list Q -> list Q.

(** [np.mean] of a non-empty array.  The scorer takes it of the audio
    slice behind the emptiness test and of librosa's per-frame features,
    which have at least one frame. *)
Definition np_mean (xs : list Q) : Q := py_sum xs / of_len (length xs).

Definition laughter_count (text : pystr) : nat :=
  list_sum (map (fun pattern => count (lower text) pattern) laughter_patterns).

Definition laughter_contribution (text : pystr) : Q :=
  py_min (of_len (laughter_count text) * 0.1) 0.2.

Definition _analyze_text_engagement (text : pystr) : Q :=
  match text with
  | [] => 0.0
  | _ :: _ =>
      let score := 0.0 in
      let sentiment := polarity text in
      let score := score + Qabs sentiment * 0.3 in
      let questions := length (findall_char 63 text) in
      let score := score + py_min (of_len questions * 0.2) 0.3 in
      let exclamations := length (findall_char 33 text) in
      let score := score + py_min (of_len exclamations * 0.15) 0.2 in
      let score := score + laughter_contribution text in
      let word_count := length (split text) in
      let score :=
        if ((5 <=? word_count) && (word_count <=? 50))%nat
        then score + 0.1 else score in
      py_min score 1.0
  end.

Definition audio_segment (audio : list Q) (sample_rate : Z)
  (start_time end_time : Q) : list Q :=
  let start_sample := py_int (start_time * of_int sample_rate) in
  let end_sample := py_int (end_time * of_int sample_rate) in
  py_slice audio start_sample end_sample.

Definition _analyze_audio_engagement (audio : list Q) (sample_rate : Z)
  (start_time end_time : Q) : Q :=
  let segment_audio := audio_segment audio sample_rate start_time end_time in
  match segment_audio with
  | [] => 0.0
  | _ :: _ =>
      let score := 0.0 in
      let rms := np_sqrt (np_mean (map (fun x => x * x) segment_audio)) in
      let score := score + py_min (rms * 10) 0.4 in
      let spectral_centroids := spectral_centroid segment_audio sample_rate in
      let avg_centroid := np_mean spectral_centroids in
      let score := score + py_min (avg_centroid / 5000) 0.3 in
      let zcr := zero_crossing_rate segment_audio in
      let avg_zcr := np_mean zcr in
      let score := score + py_min (avg_zcr * 2) 0.3 in
      py_min score 1.0
  end.

Definition _calculate_engagement_score (text : pystr) (audio : list Q)
  (sample_rate : Z) (start_time end_time : Q) : Q :=
  let score := 0.0 in
  let text_score := _analyze_text_engagement text in
  let score := score + text_score * 0.4 in
  let audio_score :=
    _analyze_audio_engagement audio sample_rate start_time end_time in
  let score := score + audio_score * 0.6 in
  py_min score 1.0.

(** ** The candidate selector *)

(** The body of [for i, segment in enumerate(all_candidates)]: the
    dictionary appended for one candidate. *)
Definition score_candidate (y : list Q) (sr : Z) (segment : Segment) : Scored :=
  let start_time := seg_start segment in
  let end_time := seg_end segment in
  let text := strip (seg_text segment) in
  let duration := end_time - start_time in
  let engagement_score :=
    _calculate_engagement_score text y sr start_time end_time in
  {| start_time := start_time;
     end_time := end_time;
     text := text;
     engagement_score := engagement_score;
     duration := duration;
     source := match seg_source segment with
               | Some s => s
               | None => str "unknown"
               end |}.

Definition is_long (seg : Segment) : bool :=
  Qle_bool 10 (seg_end seg - seg_start seg).

Definition is_suitable (seg : Scored) : bool :=
  Qle_bool 10 (duration seg) && Qle_bool (duration seg) 60.

(** [all_candidates]: the merger's output followed by the long segments. *)
Definition all_candidates (whisper_segments : list Segment) : list Segment :=
  let combined_segments := _combine_segments whisper_segments 30 in
  let long_segments := filter is_long whisper_segments in
  combined_segments ++ long_segments.

(** [segments] before it is sorted: the scored pool, in pool order. *)
Definition scored_pool (whisper_segments : list Segment) (y : list Q) (sr : Z)
  : list Scored :=
  map (score_candidate y sr) (all_candidates whisper_segments).

(** [y] and [sr] are what [librosa.load(audio_path)] returned. *)
Definition analyze_engagement (transcript_data : Transcript) (y : list Q)
  (sr : Z) : result (list Scored) :=
  let whisper_segments := get_segments transcript_data in
  match whisper_segments with
  | [] => Ok []
  | _ :: _ =>
      avg_duration <-
        py_div (py_sum (map (fun seg => seg_end seg - seg_start seg)
                            whisper_segments))
               (of_len (length whisper_segments)) ;;
      let segments := scored_pool whisper_segments y sr in
      let segments := sort_reverse engagement_score segments in
      let suitable_segments := filter is_suitable segments in
      Ok (firstn 10 suitable_segments)
  end.

End Scorers.

(** ** The laughter count in the words of the specification *)

(** Occurrences of the six patterns in the lowercased text, overlapping
    occurrences included. *)
Definition laughter_count_overlapping (text : pystr) : nat :=
  list_sum (map (fun pattern => count_overlapping (lower text) pattern)
                laughter_patterns).

(** ** Stand-ins for the external libraries

    Concrete collaborators on which the code can be run. *)

Module Samples.

(** A two-word lexicon. *)
Definition lexicon_polarity (text : pystr) : Q :=
  if (0 <? count (lower text) (str "amazing"))%nat then 0.6
  else if (0 <? count (lower text) (str "awful"))%nat then - 0.8
  else 0.

(** One Newton step from 1 towards the square root. *)
Definition newton_sqrt (x : Q) : Q := (x + 1) * 0.5.

(** One frame, centred at 1200 Hz. *)
Definition flat_centroid (segment_audio : list Q) (sr : Z) : list Q :=
  [1200].

(** One frame, one crossing every ten samples. *)
Definition flat_zcr (segment_audio : list Q) : list Q := [0.1].

(** A hand-written segment, with the three keys the program reads. *)
Definition seg (a b : Q) (t : string) : Segment :=
  {| seg_id := None; seg_start := a; seg_end := b; seg_text := str t;
     seg_source := None |}.


(** The transcript of the specification's concrete scenario. *)
Definition scenario : list Segment :=
  [seg 0 12 "This is amazing!"; seg 12 20 "Really? No way!";
   seg 20 45 "Haha that's so funny lol"].




(** A hundred samples of constant amplitude, at 2 samples per second. *)
Definition waveform : list Q := repeat 0.1 100.
Definition rate : Z := 2.

End Samples.

From Stdlib Require Import Permutation.
From Stdlib Require DecimalString.

(** * The rest of the pipeline *)

(** ** Groups of consecutive segments *)

(** [current_text] after the segments of [group] have been appended. *)
Definition joined_text (group : list Segment) : pystr :=
  concat (map (fun s => str " " ++ strip (seg_text s)) group).

(** The candidate that spans a group: from the start of its first segment
    to the end of its last one. *)
Definition group_span (group : list Segment) : list Segment :=
  match group with
  | [] => []
  | first :: _ =>
      [{| seg_id := None;
          seg_start := seg_start first;
          seg_end := seg_end (last group first);
          seg_text := strip (joined_text group);
          seg_source := Some (str "combined") |}]
  end.

(** The spans of the groups that last 10 seconds or more. *)
Definition long_spans (groups : list (list Segment)) : list Segment :=
  filter is_long (flat_map group_span groups).

(** What the loop keeps true: the segments read so far are the closed
    groups followed by the running one, the output holds the spans of the
    closed groups that are long enough, and the running start and text are
    those of the running group. *)
Definition merge_inv (done : list Segment) (st : merge_state) : Prop :=
  exists groups,
    concat groups ++ current_segments st = done
    /\ Forall (fun g => g <> []) groups
    /\ combined st = long_spans groups
    /\ current_start st = match current_segments st with
                          | [] => None
                          | first :: _ => Some (seg_start first)
                          end
    /\ current_text st = joined_text (current_segments st).


(** ** Trimmed strings *)

(** No whitespace at either end. *)
Definition trimmed (s : pystr) : Prop := lstrip s = s /\ rstrip s = s.

(** ** File names *)

(** [s.replace(old, new)] for strings of one code point. *)
Definition replace_char (old new : N) (s : pystr) : pystr :=
  map (fun c => if N.eqb c old then new else c) s.

(** [re.sub(cls, '', s)] for a character class. *)
Definition remove_class (cls : N -> bool) (s : pystr) : pystr :=
  filter (fun c => negb (cls c)) s.

(** The class of backslash, slash, colon, star, question mark, double
    quote, angle brackets, bar, newline, carriage return and tab. *)
Definition unsafe_char (c : N) : bool :=
  existsb (N.eqb c) [92; 47; 58; 42; 63; 34; 60; 62; 124; 10; 13; 9]%N.

(** The class [[^\x20-\x7E]]. *)
Definition not_printable (c : N) : bool :=
  negb ((32 <=? c) && (c <=? 126))%N.

Definition sanitize_filename (filename : pystr) : pystr :=
  (* spaces become underscores *)
  let filename := replace_char 32 95 filename in
  (* unsafe characters go *)
  let filename := remove_class unsafe_char filename in
  (* curly double quotes, curly single quotes, em and en dashes *)
  let filename := replace_char 8221 34 (replace_char 8220 34 filename) in
  let filename := replace_char 8217 39 (replace_char 8216 39 filename) in
  let filename := replace_char 8211 45 (replace_char 8212 45 filename) in
  (* what is left outside printable ASCII goes *)
  let filename := remove_class not_printable filename in
  py_slice filename 0 80.

(** The file name [download_youtube_video] saves to.  [fetched] is the
    standard output of [yt-dlp --get-title], or [None] when running it
    raised. *)
Definition download_title (video_type : pystr) (fetched : option pystr)
  : pystr :=
  match fetched with
  | Some stdout =>
      let title := strip stdout in
      let title := sanitize_filename title in
      match title with
      | [] => video_type ++ str "_video"
      | _ :: _ => title
      end
  | None => video_type ++ str "_video"
  end.

Definition download_filename (video_type : pystr) (fetched : option pystr)
  : pystr :=
  video_type ++ str "_" ++ download_title video_type fetched ++ str ".mp4".

(** A code point [sanitize_filename] leaves where it is. *)
Definition plain_char (c : N) : bool :=
  ((32 <? c) && (c <=? 126))%N && negb (unsafe_char c).

(** ** Subtitles *)

(** [sep.join(words)]. *)
Fixpoint join (sep : pystr) (words : list pystr) : pystr :=
  match words with
  | [] => []
  | w :: rest =>
      match rest with
      | [] => w
      | _ :: _ => w ++ sep ++ join sep rest
      end
  end.

Fixpoint range_up (fuel : nat) (i stop step : Z) : list Z :=
  match fuel with
  | O => []
  | S fuel' =>
      if (i <? stop)%Z then i :: range_up fuel' (i + step) stop step else []
  end.

Fixpoint range_down (fuel : nat) (i stop step : Z) : list Z :=
  match fuel with
  | O => []
  | S fuel' =>
      if (stop <? i)%Z then i :: range_down fuel' (i + step) stop step else []
  end.

(** [range(start, stop, step)]; [None] is the [ValueError] raised for a
    zero step.  The distance to [stop] bounds the number of values. *)
Definition py_range (start stop step : Z) : option (list Z) :=
  if (step =? 0)%Z then None
  else if (0 <? step)%Z
       then Some (range_up (Z.to_nat (stop - start)) start stop step)
       else Some (range_down (Z.to_nat (start - stop)) start stop step).

(** The local function [chunk_text] of [add_subtitles]. *)
Definition chunk_text (text : pystr) (n : Z) : option (list pystr) :=
  let words := split text in
  match py_range 0 (Z.of_nat (length words)) n with
  | None => None
  | Some starts =>
      Some (map (fun i => join (str " ") (py_slice words i (i + n))) starts)
  end.

(** A subtitle: its interval in the clip and its text. *)
Definition subtitle : Type := (Q * Q) * pystr.

(** The first loop of [add_subtitles]: the segments that lie in the clip,
    with times counted from the start of the clip. *)
Definition clip_subtitles (transcript_data : Transcript)
  (start_time end_time : Q) : list subtitle :=
  flat_map
    (fun segment =>
       if Qle_bool start_time (seg_start segment)
          && Qle_bool (seg_end segment) end_time
       then
         let adjusted_start := seg_start segment - start_time in
         let adjusted_end := seg_end segment - start_time in
         [((adjusted_start, adjusted_end), strip (seg_text segment))]
       else [])
    (get_segments transcript_data).

(** [enumerate(l)]. *)
Definition enumerate {A : Type} (l : list A) : list (nat * A) :=
  combine (seq 0 (length l)) l.

(** The body of the second loop, for one subtitle.  [None] stands for an
    exception, which [add_subtitles] answers by returning the video
    without subtitles.  The times are exact rationals: the division, the
    product and the two sums are not rounded as the code's floats are, so
    what is proved of them holds of the code up to rounding errors. *)
Definition chunk_subtitle (sub : subtitle) : option (list subtitle) :=
  let '((sub_start, sub_end), text) := sub in
  match chunk_text text 3 with
  | None => None
  | Some chunks =>
      let seg_duration := sub_end - sub_start in
      match py_div seg_duration (of_len (Nat.max (length chunks) 1)) with
      | Raise _ => None
      | Ok chunk_duration =>
          Some (map (fun '(idx, chunk) =>
                       let chunk_start :=
                         sub_start + of_len idx * chunk_duration in
                       let chunk_end := chunk_start + chunk_duration in
                       ((chunk_start, chunk_end), chunk))
                    (enumerate chunks))
      end
  end.

Fixpoint chunked_subtitles (subtitles : list subtitle)
  : option (list subtitle) :=
  match subtitles with
  | [] => Some []
  | sub :: rest =>
      match chunk_subtitle sub, chunked_subtitles rest with
      | Some chunks, Some more => Some (chunks ++ more)
      | _, _ => None
      end
  end.

(** The subtitles [add_subtitles] lays over a clip. *)
Definition subtitle_track (transcript_data : Transcript)
  (start_time end_time : Q) : option (list subtitle) :=
  chunked_subtitles (clip_subtitles transcript_data start_time end_time).

(** A text that [split] returns as one word: not empty, no whitespace. *)
Definition is_word (w : pystr) : Prop :=
  w <> [] /\ forallb (fun c => negb (isspace c)) w = true.

(** [words] cut into runs of [n], the last one possibly shorter. *)
Fixpoint runs_of (fuel n : nat) (words : list pystr) : list (list pystr) :=
  match fuel with
  | O => []
  | S fuel' =>
      match words with
      | [] => []
      | _ :: _ => firstn n words :: runs_of fuel' n (skipn n words)
      end
  end.

(** Subtitles that follow one another from [from] to [to] without gap or
    overlap. *)
Fixpoint tiles (from to : Q) (subs : list subtitle) : Prop :=
  match subs with
  | [] => from == to
  | ((a, b), _) :: rest => a == from /\ tiles b to rest
  end.

(** The subtitle the second loop of [add_subtitles] appends for the chunk
    of index [idx]. *)
Definition timed (sub_start chunk_duration : Q) (entry : nat * pystr)
  : subtitle :=
  let '(idx, chunk) := entry in
  let chunk_start := sub_start + of_len idx * chunk_duration in
  let chunk_end := chunk_start + chunk_duration in
  ((chunk_start, chunk_end), chunk).

(** ** Transcripts in time order *)

(** [b] neither starts nor ends before [a]. *)
Definition in_order (a b : Segment) : Prop :=
  seg_start a <= seg_start b /\ seg_end a <= seg_end b.

(** ** The pipeline *)

Section Pipeline.

Variable polarity : pystr -> Q.
Variable np_sqrt : Q -> Q.
Variable spectral_centroid : list Q -> Z -> list Q.
Variable zero_crossing_rate : list Q -> list Q.

(** [combine_videos] and [add_subtitles] on the two videos of a run, each
    returning the path of the file it wrote. *)
Variable combine_videos : Q -> Q -> pystr.
Variable add_subtitles : pystr -> Transcript -> Q -> Q -> pystr.

(** Steps 3 and 4 of [process_pipeline].  [transcript_data] is what
    [transcribe_audio] returned, [y] and [sr] the decoded audio. *)
Definition process_pipeline (transcript_data : Transcript) (y : list Q)
  (sr : Z) (num_clips : Z) : result (list pystr) :=
  engagement_segments <-
    analyze_engagement polarity np_sqrt spectral_centroid zero_crossing_rate
      transcript_data y sr ;;
  match engagement_segments with
  | [] => Ok []
  | _ :: _ =>
      Ok (map (fun segment =>
                 let combined_path :=
                   combine_videos (start_time segment) (end_time segment) in
                 let final_path :=
                   add_subtitles combined_path transcript_data
                     (start_time segment) (end_time segment) in
                 final_path)
              (py_slice engagement_segments 0 num_clips))
  end.

End Pipeline.

(** ** The prompts of [get_user_input] *)

(** [sub in s]. *)
Fixpoint contains (s sub : pystr) : bool :=
  startswith s sub
  || match s with
     | [] => false
     | _ :: s' => contains s' sub
     end.

(** The test both URL prompts apply to a non-empty answer. *)
Definition is_youtube_url (url : pystr) : bool :=
  contains url (str "youtube.com") || contains url (str "youtu.be").

(** One of the two URL prompts.  [lines] is what remains of the standard
    input, one element for each call of [input()]; at the end of the
    input [input()] raises [EOFError], which is [None] here.  The result
    is the accepted answer with the lines not yet read. *)
Fixpoint read_url (lines : list pystr) : option (pystr * list pystr) :=
  match lines with
  | [] => None
  | line :: rest =>
      let url := strip line in
      match url with
      | [] => read_url rest
      | _ :: _ => if is_youtube_url url then Some (url, rest) else read_url rest
      end
  end.

Section Prompts.

(** [int(s)] on a string; [None] is the [ValueError] it raises. *)
Variable int_of_str : pystr -> option Z.

(** The prompt for the number of clips.  On an empty answer the code sets
    [num_clips = 3] and does not leave the loop: the next iteration reads
    a new answer. *)
Fixpoint read_num_clips (lines : list pystr) : option (Z * list pystr) :=
  match lines with
  | [] => None
  | line :: rest =>
      let num_clips := strip line in
      match num_clips with
      | [] => read_num_clips rest
      | _ :: _ =>
          match int_of_str num_clips with
          | Some num_clips =>
              if ((1 <=? num_clips) && (num_clips <=? 10))%Z
              then Some (num_clips, rest)
              else read_num_clips rest
          | None => read_num_clips rest
          end
      end
  end.

Definition get_user_input (lines : list pystr) : option (pystr * pystr * Z) :=
  match read_url lines with
  | None => None
  | Some (podcast_url, lines) =>
      match read_url lines with
      | None => None
      | Some (gameplay_url, lines) =>
          match read_num_clips lines with
          | None => None
          | Some (num_clips, _) => Some (podcast_url, gameplay_url, num_clips)
          end
      end
  end.

End Prompts.

(** A stand-in for [int] that reads unsigned ASCII digits. *)
Fixpoint digits_value (acc : Z) (s : pystr) : option Z :=
  match s with
  | [] => Some acc
  | c :: s' =>
      if ((48 <=? c) && (c <=? 57))%N
      then digits_value (10 * acc + Z.of_N (c - 48)) s'
      else None
  end.

Definition digits_int (s : pystr) : option Z :=
  match s with
  | [] => None
  | _ :: _ => digits_value 0 s
  end.

(** ** Durations as text *)

(** [divmod(a, b)] on integers, for a positive [b]. *)
Definition divmod (a b : Z) : Z * Z := (a / b, a mod b)%Z.

(** [str(n)] for an integer. *)
Definition str_of_int (n : Z) : pystr :=
  str (DecimalString.NilZero.string_of_int (Z.to_int n)).

(** ["{:02}".format(n)]: at least two characters, a single digit being
    padded with a zero. *)
Definition format_02 (n : Z) : pystr :=
  let digits := str_of_int n in
  if (length digits <? 2)%nat then 48%N :: digits else digits.

(** [YouTubeToShortsPipeline.get_time_format]; [None] is Python's [None]. *)
Definition get_time_format (seconds : option Q) : pystr :=
  match seconds with
  | None => str "Unknown"
  | Some seconds =>
      let '(remMin, remSec) := divmod (py_int seconds) 60 in
      let '(hours, minutes) := divmod remMin 60 in
      format_02 hours ++ str ":" ++ format_02 minutes ++ str ":"
      ++ format_02 remSec
  end.

(** [getTimeFormat] of [youtubeDownloader.py], which has no test for
    [None]. *)
Definition getTimeFormat (seconds : Q) : pystr :=
  let '(remMin, remSec) := divmod (py_int seconds) 60 in
  let '(hours, minutes) := divmod remMin 60 in
  format_02 hours ++ str ":" ++ format_02 minutes ++ str ":"
  ++ format_02 remSec.

(** The number two decimal digits stand for. *)
Definition two_digits (s : pystr) : Z :=
  match s with
  | [a; b] => (Z.of_N a - 48) * 10 + (Z.of_N b - 48)
  | _ => -1
  end.

(** ** The command line of [run_pipeline.py] *)

(** The options that name the two videos; [None] is an option that is
    not on the command line. *)
Record Args : Type := mkArgs {
  podcast_url : option pystr;
  podcast : option pystr;
  gameplay_url : option pystr;
  gameplay : option pystr;
  podcast_youtube : option pystr;
  gameplay_youtube : option pystr;
  interactive : bool
}.

Definition given (option_value : option pystr) : bool :=
  match option_value with
  | Some _ => true
  | None => false
  end.

(** [parser.parse_args()]: [--podcast-url], [--podcast], [--gameplay-url]
    and [--gameplay] are added to one required mutually exclusive group,
    so exactly one of them must be given; otherwise the parser reports
    an error and exits, which is [None]. *)
Definition parse_args (args : Args) : option Args :=
  let group := [podcast_url args; podcast args; gameplay_url args;
                gameplay args] in
  if (length (filter given group) =? 1)%nat then Some args else None.

(** Truth of an optional string: given and not empty. *)
Definition truthy (option_value : option pystr) : bool :=
  match option_value with
  | Some (_ :: _) => true
  | _ => false
  end.

(** [a or b]. *)
Definition py_or (a b : option pystr) : option pystr :=
  if truthy a then a else b.

Definition value (option_value : option pystr) : pystr :=
  match option_value with
  | Some s => s
  | None => []
  end.

(** How [main] obtains a video. *)
Inductive video_source : Type :=
| Download (url : pystr)
| UseFile (path : pystr).

(** What [main] goes on to do once the command line is parsed. *)
Inductive plan : Type :=
| Interactive
| MissingSource
| Sources (podcast_from gameplay_from : video_source).

Definition main_plan (args : Args) : option plan :=
  match parse_args args with
  | None => None
  | Some args =>
      if interactive args then Some Interactive
      else
        let podcast_source :=
          py_or (py_or (podcast_url args) (podcast_youtube args))
                (podcast args) in
        let gameplay_source :=
          py_or (py_or (gameplay_url args) (gameplay_youtube args))
                (gameplay args) in
        if negb (truthy podcast_source) || negb (truthy gameplay_source)
        then Some MissingSource
        else
          let podcast_from :=
            if truthy (py_or (podcast_url args) (podcast_youtube args))
            then Download (value (py_or (podcast_url args)
                                        (podcast_youtube args)))
            else UseFile (value (podcast args)) in
          let gameplay_from :=
            if truthy (py_or (gameplay_url args) (gameplay_youtube args))
            then Download (value (py_or (gameplay_url args)
                                        (gameplay_youtube args)))
            else UseFile (value (gameplay args)) in
          Some (Sources podcast_from gameplay_from)
  end.
(** * Properties *)

(** ** Numbers *)

Lemma py_min_cases (a b : Q) :
  (a <= b /\ py_min a b = a) \/ (b < a /\ py_min a b = b).
Proof.
  unfold py_min. destruct (Qle_bool a b) eqn:E.
  - left. split; [now apply Qle_bool_iff | reflexivity].
  - right. split; [| reflexivity].
    apply Qnot_le_lt. intro H. apply Qle_bool_iff in H. congruence.
Qed.

Lemma py_min_Qmin (a b : Q) : py_min a b == Qmin a b.
Proof.
  destruct (py_min_cases a b) as [[H ->] | [H ->]].
  - symmetry. now apply Q.min_l.
  - symmetry. apply Q.min_r. now apply Qlt_le_weak.
Qed.

Lemma py_min_le_l (a b : Q) : py_min a b <= a.
Proof.
  destruct (py_min_cases a b) as [[H ->] | [H ->]]; [apply Qle_refl | now apply Qlt_le_weak].
Qed.

Lemma py_min_le_r (a b : Q) : py_min a b <= b.
Proof.
  destruct (py_min_cases a b) as [[H ->] | [H ->]]; [assumption | apply Qle_refl].
Qed.

Lemma py_min_glb (a b c : Q) : c <= a -> c <= b -> c <= py_min a b.
Proof.
  intros Ha Hb. destruct (py_min_cases a b) as [[H ->] | [H ->]]; assumption.
Qed.

Lemma of_len_nonneg (n : nat) : 0 <= of_len n.
Proof.
  unfold of_len. change 0 with (inject_Z 0). rewrite <- Zle_Qle. lia.
Qed.

Lemma of_len_succ_nonzero (n : nat) : Qeq_bool (of_len (S n)) 0 = false.
Proof.
  destruct (Qeq_bool (of_len (S n)) 0) eqn:E; [| reflexivity].
  apply Qeq_bool_iff in E. unfold of_len in E.
  unfold Qeq in E. simpl in E. lia.
Qed.

(** ** Sorting *)

Section SortFacts.

Variable A : Type.
Variable key : A -> Q.

Lemma insert_desc_In (x y : A) (l : list A) :
  In y (insert_desc key x l) <-> y = x \/ In y l.
Proof.
  induction l as [| z l IH]; simpl.
  - intuition.
  - destruct (Qle_bool (key z) (key x)); simpl; [intuition |].
    rewrite IH. intuition.
Qed.

Lemma sort_reverse_In (y : A) (l : list A) :
  In y (sort_reverse key l) <-> In y l.
Proof.
  induction l as [| x l IH]; simpl; [reflexivity |].
  rewrite insert_desc_In, IH. intuition.
Qed.

Lemma insert_desc_sorted (x : A) (l : list A) :
  StronglySorted (desc key) l -> StronglySorted (desc key) (insert_desc key x l).
Proof.
  induction 1 as [| y l Hs IH Hy]; simpl.
  - constructor; constructor.
  - destruct (Qle_bool (key y) (key x)) eqn:E.
    + apply Qle_bool_iff in E. constructor.
      * now constructor.
      * constructor; [exact E |].
        eapply Forall_impl; [| exact Hy].
        intros z Hz. unfold desc in *. eapply Qle_trans; eassumption.
    + constructor; [exact IH |].
      apply Forall_forall. intros z Hz. apply insert_desc_In in Hz.
      destruct Hz as [-> | Hz].
      * unfold desc. apply Qlt_le_weak, Qnot_le_lt.
        intro H. apply Qle_bool_iff in H. congruence.
      * rewrite Forall_forall in Hy. now apply Hy.
Qed.

Lemma sort_reverse_sorted (l : list A) : StronglySorted (desc key) (sort_reverse key l).
Proof.
  induction l as [| x l IH]; simpl; [constructor | now apply insert_desc_sorted].
Qed.

(** Stability: the insertion passes only strictly larger keys. *)
Lemma ties_cons (s : Q) (x : A) (l : list A) :
  ties key s (x :: l) = ties key s [x] ++ ties key s l.
Proof.
  unfold ties. simpl. now destruct (Qeq_bool (key x) s).
Qed.

Lemma insert_desc_ties (s : Q) (x : A) (l : list A) :
  ties key s (insert_desc key x l) = ties key s [x] ++ ties key s l.
Proof.
  induction l as [| y l IH]; [apply ties_cons |].
  simpl insert_desc. destruct (Qle_bool (key y) (key x)) eqn:E; [apply ties_cons |].
  rewrite (ties_cons s y), IH, (ties_cons s y l).
  unfold ties. simpl.
  destruct (Qeq_bool (key x) s) eqn:Ex, (Qeq_bool (key y) s) eqn:Ey; try reflexivity.
  exfalso. apply Qeq_bool_iff in Ex, Ey.
  assert (H : Qle_bool (key y) (key x) = true).
  { apply Qle_bool_iff. rewrite Ex, Ey. apply Qle_refl. }
  congruence.
Qed.

Lemma sort_reverse_ties (s : Q) (l : list A) :
  ties key s (sort_reverse key l) = ties key s l.
Proof.
  induction l as [| x l IH]; [reflexivity |].
  simpl sort_reverse. rewrite insert_desc_ties, IH. symmetry. apply ties_cons.
Qed.

Lemma filter_sorted (p : A -> bool) (l : list A) :
  StronglySorted (desc key) l -> StronglySorted (desc key) (filter p l).
Proof.
  induction 1 as [| x l Hs IH Hx]; simpl; [constructor |].
  destruct (p x); [| exact IH].
  constructor; [exact IH |].
  apply Forall_forall. intros z Hz. apply filter_In in Hz.
  rewrite Forall_forall in Hx. now apply Hx.
Qed.

Lemma firstn_sorted (n : nat) (l : list A) :
  StronglySorted (desc key) l -> StronglySorted (desc key) (firstn n l).
Proof.
  intros Hs. revert n. induction Hs as [| x l Hs IH Hx]; intros [| n]; simpl;
    try constructor.
  - apply IH.
  - apply Forall_forall. intros z Hz.
    rewrite Forall_forall in Hx. apply Hx.
    rewrite <- (firstn_skipn n l). apply in_or_app. now left.
Qed.

Lemma ties_filter_comm (s : Q) (p : A -> bool) (l : list A) :
  ties key s (filter p l) = filter p (ties key s l).
Proof.
  unfold ties. induction l as [| x l IH]; simpl; [reflexivity |].
  destruct (p x) eqn:Ep, (Qeq_bool (key x) s) eqn:Es; simpl;
    rewrite ?Ep, ?Es, IH; reflexivity.
Qed.

Lemma ties_firstn (s : Q) (n : nat) (l : list A) :
  exists rest, ties key s l = ties key s (firstn n l) ++ rest.
Proof.
  exists (ties key s (skipn n l)). unfold ties.
  rewrite <- filter_app, firstn_skipn. reflexivity.
Qed.

(** A sorted list is determined by its classes of ties: whatever algorithm
    a stable sort runs, its result is the one of [sort_reverse]. *)
Lemma sorted_ties_unique (l1 l2 : list A) :
  StronglySorted (desc key) l1 -> StronglySorted (desc key) l2 ->
  (forall s, ties key s l1 = ties key s l2) -> l1 = l2.
Proof.
  intros H1. revert l2. induction H1 as [| x l1 Hs1 IH Hx]; intros l2 H2 Ht.
  - destruct l2 as [| y l2]; [reflexivity |].
    specialize (Ht (key y)). unfold ties in Ht. simpl in Ht.
    rewrite (proj2 (Qeq_bool_iff _ _) (Qeq_refl _)) in Ht. discriminate.
  - destruct H2 as [| y l2 Hs2 Hy].
    + specialize (Ht (key x)). unfold ties in Ht. simpl in Ht.
      rewrite (proj2 (Qeq_bool_iff _ _) (Qeq_refl _)) in Ht. discriminate.
    + assert (Hxy : key x <= key y).
      { pose proof (Ht (key x)) as E. unfold ties in E. simpl in E.
        rewrite (proj2 (Qeq_bool_iff _ _) (Qeq_refl _)) in E.
        assert (Hin : In x (filter (fun z => Qeq_bool (key z) (key x)) (y :: l2))).
        { simpl. rewrite <- E. now left. }
        apply filter_In in Hin. destruct Hin as [[-> | Hin] _]; [apply Qle_refl |].
        rewrite Forall_forall in Hy. now apply Hy. }
      assert (Hyx : key y <= key x).
      { pose proof (Ht (key y)) as E. unfold ties in E. simpl in E.
        rewrite (proj2 (Qeq_bool_iff (key y) _) (Qeq_refl _)) in E.
        assert (Hin : In y (filter (fun z => Qeq_bool (key z) (key y)) (x :: l1))).
        { simpl. rewrite E. now left. }
        apply filter_In in Hin. destruct Hin as [[-> | Hin] _]; [apply Qle_refl |].
        rewrite Forall_forall in Hx. now apply Hx. }
      assert (Heq : key x == key y) by now apply Qle_antisym.
      assert (Hhd : x = y /\ forall s, ties key s l1 = ties key s l2).
      { split.
        - pose proof (Ht (key x)) as E. unfold ties in E. simpl in E.
          rewrite (proj2 (Qeq_bool_iff _ _) (Qeq_refl _)) in E.
          rewrite (proj2 (Qeq_bool_iff (key y) (key x)) (Qeq_sym _ _ Heq)) in E.
          congruence.
        - intros s. pose proof (Ht s) as E. unfold ties in E |- *. simpl in E.
          destruct (Qeq_bool (key x) s) eqn:Ex.
          + apply Qeq_bool_iff in Ex.
            rewrite (proj2 (Qeq_bool_iff (key y) s)) in E
              by (rewrite <- Heq; exact Ex).
            congruence.
          + destruct (Qeq_bool (key y) s) eqn:Ey; [| exact E].
            exfalso. apply Qeq_bool_iff in Ey.
            assert (Qeq_bool (key x) s = true)
              by (apply Qeq_bool_iff; rewrite Heq; exact Ey).
            congruence. }
      destruct Hhd as [-> Ht']. f_equal. now apply IH.
Qed.

End SortFacts.

(** ** The segment merger *)

Lemma pystr_eqb_refl (s : pystr) : PyStr.eqb s s = true.
Proof.
  induction s as [| c s IH]; simpl; [reflexivity |].
  now rewrite N.eqb_refl, IH.
Qed.

Lemma Qeq_bool_refl (x : Q) : Qeq_bool x x = true.
Proof. apply Qeq_bool_iff, Qeq_refl. Qed.

Lemma segment_eqb_refl (a : Segment) : segment_eqb a a = true.
Proof.
  unfold segment_eqb. rewrite !Qeq_bool_refl, pystr_eqb_refl.
  assert (Hid : option_eqb Z.eqb (seg_id a) (seg_id a) = true)
    by (destruct (seg_id a); simpl; [apply Z.eqb_refl | reflexivity]).
  rewrite Hid. simpl.
  destruct (seg_source a); simpl; [apply pystr_eqb_refl | reflexivity].
Qed.




Section MergeFacts.

Variable segments : list Segment.
Variable target_duration : Q.

Variable P : Segment -> Prop.
Hypothesis P_candidate :
  forall st segment,
    10 <= group_duration st segment -> P (group_candidate st segment).

Lemma merge_step_combined (st : merge_state) (segment : Segment) :
  Forall P (combined st) ->
  Forall P (combined (merge_step segments target_duration st segment)).
Proof.
  intros H. unfold merge_step.
  destruct (group_closes segments target_duration st segment); simpl; [| exact H].
  destruct (Qle_bool 10 (group_duration st segment)) eqn:E; [| exact H].
  apply Forall_app. split; [exact H |].
  constructor; [| constructor].
  apply P_candidate. now apply Qle_bool_iff.
Qed.

Lemma merge_loop_combined (todo : list Segment) (st : merge_state) :
  Forall P (combined st) ->
  Forall P (combined (merge_loop segments target_duration st todo)).
Proof.
  revert st. induction todo as [| segment todo IH]; intros st H; simpl.
  - exact H.
  - apply IH. now apply merge_step_combined.
Qed.

End MergeFacts.

Lemma combine_segments_emitted (segments : list Segment) (target_duration : Q) :
  Forall emitted (_combine_segments segments target_duration).
Proof.
  unfold _combine_segments. apply merge_loop_combined.
  - intros st segment H. split; [exact H | reflexivity].
  - constructor.
Qed.

Lemma merge_step_dropped (segments : list Segment) (target_duration : Q)
  (st : merge_state) (segment : Segment) :
  group_closes segments target_duration st segment = true ->
  group_duration st segment < 10 ->
  merge_step segments target_duration st segment
  = {| combined := combined st; current_segments := [];
       current_start := None; current_text := [] |}.
Proof.
  intros Hc Hd. unfold merge_step. rewrite Hc.
  destruct (Qle_bool 10 (group_duration st segment)) eqn:E; [| reflexivity].
  apply Qle_bool_iff in E. exfalso. eapply Qlt_not_le; eassumption.
Qed.

(** ** Strings *)

Lemma findall_char_blank (c : N) (s : pystr) :
  isspace c = false -> forallb isspace s = true -> findall_char c s = [].
Proof.
  intros Hc. unfold findall_char.
  induction s as [| d s IH]; simpl; [reflexivity |].
  intros H. apply andb_true_iff in H. destruct H as [Hd Hs].
  destruct (N.eqb c d) eqn:E; [| now apply IH].
  apply N.eqb_eq in E. subst d. congruence.
Qed.

Lemma split_blank (s : pystr) : forallb isspace s = true -> split s = [].
Proof.
  unfold split. induction s as [| c s IH]; simpl; [reflexivity |].
  intros H. apply andb_true_iff in H. destruct H as [Hc Hs].
  rewrite Hc. now apply IH.
Qed.

Lemma lower_char_space (c : N) : isspace c = true -> lower_char c = c.
Proof.
  intros H. unfold lower_char.
  destruct ((65 <=? c) && (c <=? 90))%N eqn:E; [| reflexivity].
  exfalso. apply andb_true_iff in E. destruct E as [E1 E2].
  apply N.leb_le in E1, E2. unfold isspace in H.
  repeat match type of H with
         | (_ || _)%bool = true => apply orb_true_iff in H; destruct H as [H | H]
         | (_ && _)%bool = true => apply andb_true_iff in H; destruct H as [H ?]
         end;
    repeat match goal with
           | H : (_ <=? _)%N = true |- _ => apply N.leb_le in H
           | H : (_ =? _)%N = true |- _ => apply N.eqb_eq in H
           end; lia.
Qed.

Lemma lower_blank (s : pystr) : forallb isspace s = true -> lower s = s.
Proof.
  induction s as [| c s IH]; simpl; [reflexivity |].
  intros H. apply andb_true_iff in H. destruct H as [Hc Hs].
  now rewrite lower_char_space, IH.
Qed.

Lemma strip_blank (s : pystr) : forallb isspace s = true -> strip s = [].
Proof.
  intros H. unfold strip, rstrip.
  assert (E : lstrip s = []).
  { induction s as [| c s IH]; simpl; [reflexivity |].
    simpl in H. apply andb_true_iff in H. destruct H as [Hc Hs].
    rewrite Hc. now apply IH. }
  rewrite E. reflexivity.
Qed.

Lemma count_from_blank (p : N) (sub s : pystr) (k : nat) :
  isspace p = false -> forallb isspace s = true -> count_from k s (p :: sub) = O.
Proof.
  intros Hp. revert k. induction s as [| c s IH]; intros k H; simpl; [reflexivity |].
  simpl in H. apply andb_true_iff in H. destruct H as [Hc Hs].
  destruct k as [| k]; [| now apply IH].
  destruct (N.eqb p c) eqn:E.
  - apply N.eqb_eq in E. subst c. congruence.
  - simpl. now apply IH.
Qed.

Lemma laughter_count_blank (text : pystr) :
  forallb isspace text = true -> laughter_count text = O.
Proof.
  intros H. unfold laughter_count, count.
  let p := eval vm_compute in laughter_patterns in change laughter_patterns with p.
  simpl. rewrite (lower_blank _ H).
  rewrite !count_from_blank by (reflexivity || exact H). reflexivity.
Qed.

(** A counted occurrence is an occurrence. *)
Lemma count_from_le_overlapping (sub s : pystr) (k : nat) :
  (count_from k s sub <= count_overlapping s sub)%nat.
Proof.
  revert k. induction s as [| c s IH]; intros k;
    cbn [count_from count_overlapping]; [lia |].
  destruct k as [| k].
  - destruct (startswith (c :: s) sub).
    + specialize (IH (length sub - 1)%nat). lia.
    + apply IH.
  - specialize (IH k). lia.
Qed.

Lemma count_from_unbordered (sub s : pystr) (k : nat) :
  unbordered sub ->
  (forall i, (i < k)%nat -> startswith (skipn i s) sub = false) ->
  count_from k s sub = count_overlapping s sub.
Proof.
  intros Hu. revert k. induction s as [| c s IH]; intros k Hk; [reflexivity |].
  cbn [count_from count_overlapping]. destruct k as [| k].
  - destruct (startswith (c :: s) sub) eqn:E.
    + rewrite IH; [reflexivity |].
      intros i Hi. apply (Hu (c :: s) (S i) E). lia.
    + rewrite IH; [reflexivity |]. intros i Hi. lia.
  - pose proof (Hk O ltac:(lia)) as H0. cbn [skipn] in H0. rewrite H0.
    rewrite IH; [reflexivity |].
    intros i Hi. apply (Hk (S i)). lia.
Qed.

Lemma count_unbordered (sub s : pystr) :
  unbordered sub -> count s sub = count_overlapping s sub.
Proof.
  intros Hu. apply count_from_unbordered; [exact Hu |]. intros i Hi. lia.
Qed.

Lemma unbordered_single (c : N) : unbordered [c].
Proof. intros s i _ Hi. simpl in Hi. lia. Qed.

Lemma unbordered_lmao : unbordered (str "lmao").
Proof.
  change (str "lmao") with [108; 109; 97; 111]%N.
  intros s i Hs Hi. cbn [length] in Hi.
  destruct s as [| c1 [| c2 [| c3 [| c4 s]]]]; cbn [startswith] in Hs;
    rewrite ?andb_false_r in Hs; try discriminate Hs.
  repeat (apply andb_true_iff in Hs; destruct Hs as [? Hs]).
  repeat match goal with
         | H : (_ =? _)%N = true |- _ => apply N.eqb_eq in H; subst
         end.
  destruct i as [| [| [| [| i]]]]; try lia; reflexivity.
Qed.

(** ** The text scorer *)

Section TextFacts.

Variable polarity : pystr -> Q.

Lemma laughter_contribution_bounds (text : pystr) :
  0 <= laughter_contribution text <= 0.2.
Proof.
  unfold laughter_contribution. split; [| apply py_min_le_r].
  apply py_min_glb; [| lra].
  pose proof (of_len_nonneg (laughter_count text)). nra.
Qed.

(** The score as one expression, with the minimum of the library. *)
Lemma text_score_formula (text : pystr) :
  text <> [] ->
  _analyze_text_engagement polarity text
  == Qmin (Qabs (polarity text) * 0.3
           + Qmin (of_len (length (findall_char 63 text)) * 0.2) 0.3
           + Qmin (of_len (length (findall_char 33 text)) * 0.15) 0.2
           + laughter_contribution text
           + (if ((5 <=? length (split text)) && (length (split text) <=? 50))%nat
              then 0.1 else 0)) 1.
Proof.
  intros Hne. destruct text as [| c text]; [congruence |].
  unfold _analyze_text_engagement.
  cbv zeta. rewrite py_min_Qmin.
  destruct ((5 <=? _) && _)%nat; apply Q.min_compat;
    rewrite ?py_min_Qmin; lra.
Qed.

Lemma text_score_bounds (text : pystr) :
  0 <= _analyze_text_engagement polarity text <= 1.
Proof.
  destruct text as [| c text]; [simpl; lra |].
  rewrite text_score_formula by discriminate.
  split; [| apply Q.le_min_r].
  apply Q.min_glb; [| lra].
  pose proof (Qabs_nonneg (polarity (c :: text))).
  pose proof (laughter_contribution_bounds (c :: text)).
  assert (forall n k m, 0 <= k -> 0 <= m -> 0 <= Qmin (of_len n * k) m) as Hmin.
  { intros n k m Hk Hm. apply Q.min_glb; [| exact Hm].
    pose proof (of_len_nonneg n). nra. }
  pose proof (Hmin (length (findall_char 63 (c :: text))) 0.2 0.3 ltac:(lra) ltac:(lra)).
  pose proof (Hmin (length (findall_char 33 (c :: text))) 0.15 0.2 ltac:(lra) ltac:(lra)).
  destruct ((5 <=? _) && _)%nat; lra.
Qed.

Lemma text_score_blank (text : pystr) :
  text <> [] -> forallb isspace text = true ->
  _analyze_text_engagement polarity text == Qmin (Qabs (polarity text) * 0.3) 1.
Proof.
  intros Hne Hb. rewrite text_score_formula by exact Hne.
  unfold laughter_contribution.
  rewrite laughter_count_blank, split_blank, !findall_char_blank
    by (reflexivity || exact Hb).
  cbn [length Nat.leb andb]. change (of_len 0) with 0.
  apply Q.min_compat; [| reflexivity].
  rewrite py_min_Qmin, !Q.min_l by lra. lra.
Qed.

End TextFacts.

(** ** Slicing and truncation *)

Lemma slice_bound_nonneg (len i : Z) :
  (0 <= i)%Z -> slice_bound len i = Z.min i len.
Proof.
  intros Hi. unfold slice_bound.
  assert (E : (i <? 0)%Z = false) by (apply Z.ltb_ge; exact Hi).
  rewrite E. cbv zeta. rewrite E.
  destruct (Z.ltb_spec len i); lia.
Qed.

Lemma py_slice_nonneg {A : Type} (l : list A) (i j : Z) :
  (0 <= i)%Z -> (0 <= j)%Z ->
  py_slice l i j = firstn (Z.to_nat j - Z.to_nat i) (skipn (Z.to_nat i) l).
Proof.
  intros Hi Hj. unfold py_slice.
  rewrite !slice_bound_nonneg by assumption.
  set (n := length l).
  destruct (Z.le_gt_cases i (Z.of_nat n)) as [Hni | Hni].
  - rewrite (Z.min_l i) by exact Hni.
    destruct (Z.le_gt_cases j (Z.of_nat n)) as [Hnj | Hnj].
    + now rewrite (Z.min_l j).
    + rewrite (Z.min_r j) by lia.
      rewrite !firstn_all2; [reflexivity | |]; rewrite length_skipn; fold n; lia.
  - rewrite (Z.min_r i) by lia. rewrite Nat2Z.id.
    rewrite (skipn_all2 (n := Z.to_nat i)) by (fold n; lia).
    unfold n. rewrite skipn_all. now rewrite !firstn_nil.
Qed.

Lemma py_int_truncates (x : Q) :
  0 <= x ->
  (0 <= py_int x)%Z /\ inject_Z (py_int x) <= x < inject_Z (py_int x) + 1.
Proof.
  destruct x as [n d]. unfold Qle, Qlt, py_int. simpl. intros H.
  assert (Hn : (0 <= n)%Z) by lia.
  rewrite Z.quot_div_nonneg by lia.
  pose proof (Z.div_mod n (Z.pos d) ltac:(lia)) as Hdm.
  pose proof (Z.mod_pos_bound n (Z.pos d) ltac:(lia)) as Hm.
  pose proof (Z.div_pos n (Z.pos d) Hn ltac:(lia)) as Hq.
  repeat split; [exact Hq | nia | nia].
Qed.

(** ** The audio scorer *)

Lemma fold_plus_nonneg (xs : list Q) (acc : Q) :
  0 <= acc -> Forall (Qle 0) xs -> 0 <= fold_left Qplus xs acc.
Proof.
  revert acc. induction xs as [| x xs IH]; intros acc Hacc H; simpl; [exact Hacc |].
  inversion H; subst. apply IH; [lra | assumption].
Qed.

Lemma np_mean_nonneg (xs : list Q) : Forall (Qle 0) xs -> 0 <= np_mean xs.
Proof.
  intros H. unfold np_mean, py_sum.
  pose proof (fold_plus_nonneg xs 0 (Qle_refl 0) H) as Hs.
  pose proof (of_len_nonneg (length xs)) as Hl.
  unfold Qdiv. apply Qmult_le_0_compat; [exact Hs |].
  now apply Qinv_le_0_compat.
Qed.

Lemma squares_nonneg (xs : list Q) : Forall (Qle 0) (map (fun x => x * x) xs).
Proof.
  apply Forall_forall. intros y Hy. apply in_map_iff in Hy.
  destruct Hy as [x [<- _]]. nra.
Qed.

Section AudioFacts.

Variable np_sqrt : Q -> Q.
Variable spectral_centroid : list Q -> Z -> list Q.
Variable zero_crossing_rate : list Q -> list Q.

Hypothesis np_sqrt_nonneg : forall x, 0 <= x -> 0 <= np_sqrt x.
Hypothesis centroid_nonneg :
  forall segment_audio sr, Forall (Qle 0) (spectral_centroid segment_audio sr).
Hypothesis zcr_nonneg :
  forall segment_audio, Forall (Qle 0) (zero_crossing_rate segment_audio).

Lemma audio_score_bounds (audio : list Q) (sample_rate : Z) (start_time end_time : Q) :
  0 <= _analyze_audio_engagement np_sqrt spectral_centroid zero_crossing_rate
         audio sample_rate start_time end_time <= 1.
Proof.
  unfold _analyze_audio_engagement.
  destruct (audio_segment audio sample_rate start_time end_time) as [| x seg];
    [lra |].
  cbv zeta. set (sq := np_sqrt _). set (c := np_mean (spectral_centroid _ _)).
  set (z := np_mean (zero_crossing_rate _)).
  assert (Hsq : 0 <= sq) by (apply np_sqrt_nonneg, np_mean_nonneg, squares_nonneg).
  assert (Hc : 0 <= c) by apply np_mean_nonneg, centroid_nonneg.
  assert (Hz : 0 <= z) by apply np_mean_nonneg, zcr_nonneg.
  split.
  - apply py_min_glb; [| lra].
    assert (0 <= py_min (sq * 10) 0.4) by (apply py_min_glb; lra).
    assert (0 <= py_min (c / 5000) 0.3).
    { apply py_min_glb; [| lra]. unfold Qdiv. apply Qmult_le_0_compat; [exact Hc |].
      apply Qinv_le_0_compat. lra. }
    assert (0 <= py_min (z * 2) 0.3) by (apply py_min_glb; lra).
    lra.
  - eapply Qle_trans; [apply py_min_le_r | lra].
Qed.

End AudioFacts.

(** ** The candidate selector *)

Section SelectorFacts.

Variable polarity : pystr -> Q.
Variable np_sqrt : Q -> Q.
Variable spectral_centroid : list Q -> Z -> list Q.
Variable zero_crossing_rate : list Q -> list Q.

(** The division by [len(whisper_segments)] is behind the emptiness test,
    so the selector always returns. *)
Lemma analyze_engagement_returns (transcript_data : Transcript) (y : list Q) (sr : Z) :
  analyze_engagement polarity np_sqrt spectral_centroid zero_crossing_rate
    transcript_data y sr
  = Ok (match get_segments transcript_data with
        | [] => []
        | _ :: _ =>
            firstn 10 (filter is_suitable
              (sort_reverse engagement_score
                 (scored_pool polarity np_sqrt spectral_centroid
                    zero_crossing_rate (get_segments transcript_data) y sr)))
        end).
Proof.
  unfold analyze_engagement.
  destruct (get_segments transcript_data) as [| seg segs]; [reflexivity |].
  unfold py_div. cbn [length]. rewrite of_len_succ_nonzero. reflexivity.
Qed.

Lemma selected_in_pool (pool : list Scored) (c : Scored) :
  In c (firstn 10 (filter is_suitable (sort_reverse engagement_score pool))) ->
  is_suitable c = true /\ In c pool.
Proof.
  intros H.
  assert (H' : In c (filter is_suitable (sort_reverse engagement_score pool))).
  { rewrite <- (firstn_skipn 10). apply in_or_app. left. exact H. }
  apply filter_In in H'. destruct H' as [Hin Hs]. split; [exact Hs |].
  now apply sort_reverse_In in Hin.
Qed.

Lemma pool_origin (whisper_segments : list Segment) (y : list Q) (sr : Z)
  (c : Scored) :
  In c (scored_pool polarity np_sqrt spectral_centroid zero_crossing_rate
          whisper_segments y sr) ->
  exists segment,
    c = score_candidate polarity np_sqrt spectral_centroid zero_crossing_rate
          y sr segment
    /\ (In segment (_combine_segments whisper_segments 30)
        \/ In segment whisper_segments /\ is_long segment = true).
Proof.
  unfold scored_pool, all_candidates. intros H.
  apply in_map_iff in H. destruct H as [segment [<- Hin]].
  exists segment. split; [reflexivity |].
  apply in_app_or in Hin. destruct Hin as [Hin | Hin]; [now left | right].
  now apply filter_In in Hin.
Qed.

End SelectorFacts.

(** * The claims of the specification *)

(** C1. Every entry of the list [analyze_engagement] returns has a duration
    between 10 and 60 seconds, which is its end time minus its start time;
    the list is in non-increasing order of [engagement_score]; the entries
    with one score are, in order, the first suitable entries of the scored
    pool with that score, so ties keep the order of the pool; and the list
    has at most 10 entries.  The selector returns for every input. *)
Theorem analyze_engagement_selection
  (polarity : pystr -> Q) (np_sqrt : Q -> Q)
  (spectral_centroid : list Q -> Z -> list Q)
  (zero_crossing_rate : list Q -> list Q)
  (transcript_data : Transcript) (y : list Q) (sr : Z) :
  exists out,
    analyze_engagement polarity np_sqrt spectral_centroid zero_crossing_rate
      transcript_data y sr = Ok out
    /\ Forall (fun c => 10 <= duration c <= 60
                        /\ duration c = end_time c - start_time c) out
    /\ StronglySorted (desc engagement_score) out
    /\ (forall s, exists rest,
          ties engagement_score s
            (filter is_suitable
               (scored_pool polarity np_sqrt spectral_centroid
                  zero_crossing_rate (get_segments transcript_data) y sr))
          = ties engagement_score s out ++ rest)
    /\ (length out <= 10)%nat.
Proof.
  rewrite analyze_engagement_returns. eexists. split; [reflexivity |].
  destruct (get_segments transcript_data) as [| seg segs] eqn:E.
  - repeat split; [constructor | constructor | | cbn; lia].
    intros s. exists []. reflexivity.
  - set (pool := scored_pool _ _ _ _ _ _ _). repeat split.
    + apply Forall_forall. intros c Hc.
      apply selected_in_pool in Hc. destruct Hc as [Hs Hin].
      unfold is_suitable in Hs. apply andb_true_iff in Hs.
      destruct Hs as [H10 H60]. apply Qle_bool_iff in H10, H60.
      repeat split; try assumption.
      apply pool_origin in Hin. destruct Hin as [segment [-> _]]. reflexivity.
    + apply firstn_sorted, filter_sorted, sort_reverse_sorted.
    + intros s.
      destruct (ties_firstn Scored engagement_score s 10
                  (filter is_suitable (sort_reverse engagement_score pool)))
        as [rest Hrest].
      exists rest. rewrite <- Hrest.
      now rewrite !ties_filter_comm, sort_reverse_ties.
    + rewrite length_firstn. lia.
Qed.

(** C5. With an empty sequence of transcript segments, or with no
    ['segments'] key at all, the selector returns the empty list and raises
    nothing, whatever the waveform and the sample rate. *)
Theorem analyze_engagement_empty_transcript
  (polarity : pystr -> Q) (np_sqrt : Q -> Q)
  (spectral_centroid : list Q -> Z -> list Q)
  (zero_crossing_rate : list Q -> list Q) (y : list Q) (sr : Z) :
  analyze_engagement polarity np_sqrt spectral_centroid zero_crossing_rate
    {| segments_key := Some [] |} y sr = Ok []
  /\ analyze_engagement polarity np_sqrt spectral_centroid zero_crossing_rate
       {| segments_key := None |} y sr = Ok [].
Proof. split; reflexivity. Qed.

(** C3. Whatever the segments and the target duration, every candidate
    [_combine_segments] emits lasts at least 10 seconds (and is tagged
    [combined]); an iteration that closes a group shorter than 10 seconds
    appends nothing and resets the group. *)
Theorem combine_segments_duration_floor
  (segments : list Segment) (target_duration : Q) :
  Forall (fun c => 10 <= seg_end c - seg_start c
                   /\ ~ seg_end c - seg_start c < 10)
         (_combine_segments segments target_duration)
  /\ forall st segment,
       group_closes segments target_duration st segment = true ->
       group_duration st segment < 10 ->
       merge_step segments target_duration st segment
       = {| combined := combined st; current_segments := [];
            current_start := None; current_text := [] |}.
Proof.
  split.
  - eapply Forall_impl; [| apply combine_segments_emitted].
    intros c [H _]. split; [exact H | now apply Qle_not_lt].
  - apply merge_step_dropped.
Qed.



(** C2. When the numeric libraries return non-negative values (square
    roots of non-negative numbers, spectral centroids, zero-crossing
    rates), the fused score is [clamp(0.4 * text_score + 0.6 * audio_score,
    0, 1)], the two scores being those of the text scorer and of the audio
    scorer; and the [engagement_score] of every scored candidate is that
    value at the candidate's own text and time span. *)
Theorem engagement_score_fusion
  (polarity : pystr -> Q) (np_sqrt : Q -> Q)
  (spectral_centroid : list Q -> Z -> list Q)
  (zero_crossing_rate : list Q -> list Q)
  (np_sqrt_nonneg : forall x, 0 <= x -> 0 <= np_sqrt x)
  (centroid_nonneg :
     forall segment_audio sr, Forall (Qle 0) (spectral_centroid segment_audio sr))
  (zcr_nonneg :
     forall segment_audio, Forall (Qle 0) (zero_crossing_rate segment_audio))
  (audio : list Q) (sample_rate : Z) :
  (forall text start_time end_time,
     _calculate_engagement_score polarity np_sqrt spectral_centroid
       zero_crossing_rate text audio sample_rate start_time end_time
     == clamp (0.4 * _analyze_text_engagement polarity text
               + 0.6 * _analyze_audio_engagement np_sqrt spectral_centroid
                         zero_crossing_rate audio sample_rate
                         start_time end_time) 0 1)
  /\ forall segment,
       let c := score_candidate polarity np_sqrt spectral_centroid
                  zero_crossing_rate audio sample_rate segment in
       engagement_score c
       == clamp (0.4 * _analyze_text_engagement polarity (text c)
                 + 0.6 * _analyze_audio_engagement np_sqrt spectral_centroid
                           zero_crossing_rate audio sample_rate
                           (start_time c) (end_time c)) 0 1.
Proof.
  assert (G : forall text start_time end_time,
     _calculate_engagement_score polarity np_sqrt spectral_centroid
       zero_crossing_rate text audio sample_rate start_time end_time
     == clamp (0.4 * _analyze_text_engagement polarity text
               + 0.6 * _analyze_audio_engagement np_sqrt spectral_centroid
                         zero_crossing_rate audio sample_rate
                         start_time end_time) 0 1).
  { intros text start_time end_time.
    unfold _calculate_engagement_score, clamp. cbv zeta.
    pose proof (text_score_bounds polarity text) as Ht.
    pose proof (audio_score_bounds np_sqrt spectral_centroid zero_crossing_rate
                  np_sqrt_nonneg centroid_nonneg zcr_nonneg
                  audio sample_rate start_time end_time) as Ha.
    set (t := _analyze_text_engagement polarity text) in *.
    set (a := _analyze_audio_engagement _ _ _ _ _ _ _) in *.
    rewrite py_min_Qmin.
    rewrite Q.max_r by (apply Q.min_glb; lra).
    apply Q.min_compat; lra. }
  split; [exact G |].
  intros segment c. apply G.
Qed.

(** The fusion on the specification's scenario, with the stand-ins. *)
Lemma engagement_score_fusion_witness :
  _calculate_engagement_score Samples.lexicon_polarity Samples.newton_sqrt
    Samples.flat_centroid Samples.flat_zcr
    (str "This is amazing!") Samples.waveform Samples.rate 0 12
  == clamp (0.4 * _analyze_text_engagement Samples.lexicon_polarity
                    (str "This is amazing!")
            + 0.6 * _analyze_audio_engagement Samples.newton_sqrt
                      Samples.flat_centroid Samples.flat_zcr
                      Samples.waveform Samples.rate 0 12) 0 1.
Proof.
  assert (H1 : forall x, 0 <= x -> 0 <= Samples.newton_sqrt x)
    by (intros x Hx; unfold Samples.newton_sqrt; lra).
  assert (H2 : forall segment_audio sr,
             Forall (Qle 0) (Samples.flat_centroid segment_audio sr))
    by (intros; repeat constructor; discriminate).
  assert (H3 : forall segment_audio,
             Forall (Qle 0) (Samples.flat_zcr segment_audio))
    by (intros; repeat constructor; discriminate).
  exact (proj1 (engagement_score_fusion Samples.lexicon_polarity
                  Samples.newton_sqrt Samples.flat_centroid Samples.flat_zcr
                  H1 H2 H3 Samples.waveform Samples.rate)
               (str "This is amazing!") 0 12).
Defined.

(** C7.  For non-negative times and sample rate, the audio scorer reads
    the samples of indices [a] to [b - 1], where [a] and [b] are
    [start_time * sample_rate] and [end_time * sample_rate] truncated to
    integers.  Its result is computed from these samples and from nothing
    else of the waveform: it is 0 when there is none, and otherwise the
    sum, capped at 1, of [min(rms * 10, 0.4)], [min(centroid / 5000, 0.3)]
    and [min(zcr * 2, 0.3)], each feature taken of the slice; a waveform
    with the same samples at these indices gets the same score.  When the
    numeric libraries return non-negative values the score lies in
    [0, 1]. *)
Theorem audio_score_slice_and_bounds
  (np_sqrt : Q -> Q)
  (spectral_centroid : list Q -> Z -> list Q)
  (zero_crossing_rate : list Q -> list Q)
  (np_sqrt_nonneg : forall x, 0 <= x -> 0 <= np_sqrt x)
  (centroid_nonneg :
     forall segment_audio sr, Forall (Qle 0) (spectral_centroid segment_audio sr))
  (zcr_nonneg :
     forall segment_audio, Forall (Qle 0) (zero_crossing_rate segment_audio))
  (audio : list Q) (sample_rate : Z) (start_time end_time : Q)
  (rate_nonneg : (0 <= sample_rate)%Z)
  (start_nonneg : 0 <= start_time) (end_nonneg : 0 <= end_time) :
  let a := py_int (start_time * of_int sample_rate) in
  let b := py_int (end_time * of_int sample_rate) in
  let slice := fun samples : list Q =>
    firstn (Z.to_nat b - Z.to_nat a) (skipn (Z.to_nat a) samples) in
  let scorer := _analyze_audio_engagement np_sqrt spectral_centroid
                  zero_crossing_rate in
  let score := scorer audio sample_rate start_time end_time in
  (inject_Z a <= start_time * of_int sample_rate < inject_Z a + 1
   /\ inject_Z b <= end_time * of_int sample_rate < inject_Z b + 1)
  /\ audio_segment audio sample_rate start_time end_time = slice audio
  /\ (slice audio = [] -> score == 0)
  /\ (slice audio <> [] ->
      score
      == Qmin (Qmin (np_sqrt (np_mean (map (fun x => x * x) (slice audio))) * 10)
                 0.4
               + Qmin (np_mean (spectral_centroid (slice audio) sample_rate)
                       / 5000) 0.3
               + Qmin (np_mean (zero_crossing_rate (slice audio)) * 2) 0.3) 1)
  /\ (forall audio',
        slice audio' = slice audio ->
        scorer audio' sample_rate start_time end_time = score)
  /\ 0 <= score <= 1.
Proof.
  intros a b slice scorer score.
  assert (Hr : 0 <= of_int sample_rate).
  { unfold of_int. change 0 with (inject_Z 0). now rewrite <- Zle_Qle. }
  assert (Hs : 0 <= start_time * of_int sample_rate) by nra.
  assert (He : 0 <= end_time * of_int sample_rate) by nra.
  destruct (py_int_truncates _ Hs) as [Ha Hta].
  destruct (py_int_truncates _ He) as [Hb Htb].
  assert (Hslice : forall samples,
             audio_segment samples sample_rate start_time end_time
             = slice samples).
  { intros samples. unfold audio_segment. now apply py_slice_nonneg. }
  split; [tauto |]. split; [apply Hslice |].
  split.
  { intros E. unfold score, scorer, _analyze_audio_engagement.
    rewrite Hslice, E. reflexivity. }
  split.
  { intros Hne. unfold score, scorer, _analyze_audio_engagement.
    rewrite Hslice. destruct (slice audio) as [| x xs]; [congruence |].
    cbv zeta. rewrite py_min_Qmin. apply Q.min_compat; [| reflexivity].
    rewrite !py_min_Qmin. lra. }
  split.
  { intros audio' E. unfold score, scorer, _analyze_audio_engagement.
    now rewrite !Hslice, E. }
  apply audio_score_bounds; assumption.
Qed.

(** The audio scorer on the first twelve seconds of the sample waveform. *)
Lemma audio_score_slice_and_bounds_witness :
  audio_segment Samples.waveform Samples.rate 0 12
  = firstn 24 Samples.waveform
  /\ 0 <= _analyze_audio_engagement Samples.newton_sqrt Samples.flat_centroid
            Samples.flat_zcr Samples.waveform Samples.rate 0 12 <= 1.
Proof.
  assert (H1 : forall x, 0 <= x -> 0 <= Samples.newton_sqrt x)
    by (intros x Hx; unfold Samples.newton_sqrt; lra).
  assert (H2 : forall segment_audio sr,
             Forall (Qle 0) (Samples.flat_centroid segment_audio sr))
    by (intros; repeat constructor; discriminate).
  assert (H3 : forall segment_audio,
             Forall (Qle 0) (Samples.flat_zcr segment_audio))
    by (intros; repeat constructor; discriminate).
  assert (H4 : (0 <= Samples.rate)%Z) by (unfold Samples.rate; lia).
  assert (H5 : 0 <= 0) by lra.
  assert (H6 : 0 <= 12) by lra.
  pose proof (audio_score_slice_and_bounds Samples.newton_sqrt
                Samples.flat_centroid Samples.flat_zcr H1 H2 H3
                Samples.waveform Samples.rate 0 12 H4 H5 H6) as H.
  cbv zeta in H. destruct H as [_ [Hslice [_ [_ [_ Hb]]]]].
  split; [exact Hslice | exact Hb].
Defined.

(** C6.  The text score lies in [0, 1], whatever polarity the sentiment
    scorer returns (the code takes its absolute value and caps the sum at
    1), and it is 0 for the empty text and for a text of whitespace only.  The empty text is answered by the
    guard [if not text].  A text of whitespace passes the guard; it has no
    question mark, no exclamation mark, no laughter and no word, and
    TextBlob gives a text without words the polarity 0.0, which is the
    hypothesis on the sentiment scorer.  The selector strips a text before
    it scores it, so from there a text of whitespace reaches the scorer as
    the empty text. *)
Theorem text_score_bounds_and_blank
  (polarity : pystr -> Q) (text : pystr)
  (polarity_blank : forall t, forallb isspace t = true -> polarity t == 0) :
  0 <= _analyze_text_engagement polarity text <= 1
  /\ (text = [] -> _analyze_text_engagement polarity text == 0)
  /\ (forallb isspace text = true ->
      _analyze_text_engagement polarity text == 0)
  /\ (forallb isspace text = true -> strip text = []).
Proof.
  split; [apply text_score_bounds |].
  split; [intros ->; reflexivity |].
  split.
  - intros Hb. destruct text as [| c text]; [reflexivity |].
    rewrite text_score_blank by (discriminate || exact Hb).
    rewrite (polarity_blank _ Hb). reflexivity.
  - apply strip_blank.
Qed.

(** C6 on a single space, with the lexicon scorer. *)
Lemma text_score_bounds_and_blank_witness :
  0 <= _analyze_text_engagement Samples.lexicon_polarity (str " ") <= 1
  /\ _analyze_text_engagement Samples.lexicon_polarity (str " ") == 0.
Proof.
  assert (Hblank : forall t, forallb isspace t = true ->
                             Samples.lexicon_polarity t == 0).
  { intros t Ht. unfold Samples.lexicon_polarity, count.
    rewrite (lower_blank _ Ht).
    change (str "amazing") with (97%N :: str "mazing").
    change (str "awful") with (97%N :: str "wful").
    rewrite !count_from_blank by (reflexivity || exact Ht). reflexivity. }
  pose proof (text_score_bounds_and_blank Samples.lexicon_polarity (str " ")
                Hblank) as [Hb [_ [Hzero _]]].
  split; [exact Hb | apply Hzero; reflexivity].
Defined.

(** C8, as stated, on the text hahaha: haha occurs at two overlapping
    positions, the code counts one, and the laughter term is 0.1 where the
    overlapping count gives 0.2. *)
Lemma laughter_overlap_counterexample :
  laughter_count_overlapping (str "hahaha") = 2%nat
  /\ laughter_count (str "hahaha") = 1%nat
  /\ ~ laughter_contribution (str "hahaha")
       == Qmin (of_len (laughter_count_overlapping (str "hahaha")) * 0.1) 0.2.
Proof.
  split; [reflexivity |]. split; [reflexivity |].
  vm_compute. discriminate.
Qed.

(** C8, amended.  The laughter term of the text score is
    [min(n * 0.1, 0.2)], where [n] adds, over haha, lol, lmao and the three
    emoji, the occurrences [str.count] finds in the lowercased text: those
    met from left to right, each starting after the end of the one before.
    [n] is at most the number of overlapping occurrences; for lmao and for
    each emoji the two counts agree. *)
Theorem laughter_contribution_counts (polarity : pystr -> Q) (text : pystr) :
  let n := (count (lower text) (str "haha") + count (lower text) (str "lol")
            + count (lower text) (str "lmao") + count (lower text) [128514%N]
            + count (lower text) [128516%N] + count (lower text) [128518%N])%nat in
  laughter_contribution text == Qmin (of_len n * 0.1) 0.2
  /\ (n <= laughter_count_overlapping text)%nat
  /\ count (lower text) (str "lmao") = count_overlapping (lower text) (str "lmao")
  /\ (forall emoji, count (lower text) [emoji]
                    = count_overlapping (lower text) [emoji])
  /\ match text with
     | [] => True
     | _ :: _ =>
         _analyze_text_engagement polarity text
         == Qmin (Qabs (polarity text) * 0.3
                  + Qmin (of_len (length (findall_char 63 text)) * 0.2) 0.3
                  + Qmin (of_len (length (findall_char 33 text)) * 0.15) 0.2
                  + laughter_contribution text
                  + (if ((5 <=? length (split text))
                         && (length (split text) <=? 50))%nat
                     then 0.1 else 0)) 1
     end.
Proof.
  intros n.
  assert (En : laughter_count text = n).
  { unfold laughter_count, laughter_patterns, n. cbn [map list_sum fold_right]. lia. }
  split.
  { unfold laughter_contribution. rewrite py_min_Qmin, En. reflexivity. }
  split.
  { rewrite <- En.
    unfold laughter_count, laughter_count_overlapping, count, list_sum.
    induction laughter_patterns as [| p ps IH]; cbn [map fold_right]; [lia |].
    pose proof (count_from_le_overlapping p (lower text) 0). lia. }
  split; [apply count_unbordered, unbordered_lmao |].
  split; [intros emoji; apply count_unbordered, unbordered_single |].
  destruct text as [| c text]; [exact I |].
  apply text_score_formula. discriminate.
Qed.




(** C10, as stated, on the specification's scenario: the two long
    transcript segments are returned with the source [unknown], which is
    neither [atomic] nor [combined]. *)
Lemma atomic_source_counterexample :
  exists out,
    analyze_engagement Samples.lexicon_polarity Samples.newton_sqrt
      Samples.flat_centroid Samples.flat_zcr
      {| segments_key := Some Samples.scenario |}
      Samples.waveform Samples.rate = Ok out
    /\ map source out = [str "combined"; str "unknown"; str "unknown"]
    /\ ~ Forall (fun c => source c = str "atomic" \/ source c = str "combined")
         out.
Proof.
  rewrite analyze_engagement_returns. eexists. split; [reflexivity |].
  match goal with |- map source ?o = _ /\ _ => set (out := o) end.
  assert (Hs : map source out = [str "combined"; str "unknown"; str "unknown"])
    by (vm_compute; reflexivity).
  split; [exact Hs |].
  intros H.
  assert (H' : Forall (fun s => s = str "atomic" \/ s = str "combined")
                 (map source out)) by (apply Forall_map; exact H).
  rewrite Hs in H'.
  inversion H' as [| ? ? _ H1]. inversion H1 as [| ? ? [A | A] _];
    vm_compute in A; discriminate A.
Qed.

(** C10, amended.  The source of a scored candidate is the ['source'] of
    the dictionary it is made from, and [unknown] when that dictionary has
    none; the dictionaries of the merger have the source [combined], and
    the code writes [atomic] nowhere.  Every entry the selector returns is
    the scored candidate either of a dictionary of the merger, and then
    its source is [combined], or of a transcript segment of 10 seconds or
    more, and then its source is that segment's own or [unknown].  On a
    transcript whose segments have no ['source'] key the sources returned
    are [combined] and [unknown]. *)
Theorem selected_source_values
  (polarity : pystr -> Q) (np_sqrt : Q -> Q)
  (spectral_centroid : list Q -> Z -> list Q)
  (zero_crossing_rate : list Q -> list Q)
  (transcript_data : Transcript) (y : list Q) (sr : Z) :
  let score := score_candidate polarity np_sqrt spectral_centroid
                 zero_crossing_rate y sr in
  let own_source := fun seg : Segment =>
    match seg_source seg with
    | Some s => s
    | None => str "unknown"
    end in
  (forall seg, source (score seg) = own_source seg)
  /\ (forall seg,
        In seg (_combine_segments (get_segments transcript_data) 30) ->
        source (score seg) = str "combined")
  /\ exists out,
       analyze_engagement polarity np_sqrt spectral_centroid
         zero_crossing_rate transcript_data y sr = Ok out
       /\ Forall (fun c =>
            exists seg,
              c = score seg
              /\ (In seg (_combine_segments (get_segments transcript_data) 30)
                  /\ source c = str "combined"
                  \/ In seg (get_segments transcript_data)
                     /\ is_long seg = true
                     /\ source c = own_source seg)) out
       /\ (Forall (fun seg => seg_source seg = None)
             (get_segments transcript_data) ->
           Forall (fun c => source c = str "combined"
                            \/ source c = str "unknown") out).
Proof.
  intros score own_source.
  assert (Hmerged : forall seg,
            In seg (_combine_segments (get_segments transcript_data) 30) ->
            source (score seg) = str "combined").
  { intros seg Hin.
    pose proof (combine_segments_emitted (get_segments transcript_data) 30)
      as He.
    rewrite Forall_forall in He. destruct (He _ Hin) as [_ Hsrc].
    unfold score, score_candidate. cbn [source]. now rewrite Hsrc. }
  split; [reflexivity |]. split; [exact Hmerged |].
  rewrite analyze_engagement_returns. eexists. split; [reflexivity |].
  assert (G : forall c,
    In c match get_segments transcript_data with
         | [] => []
         | _ :: _ =>
             firstn 10 (filter is_suitable
               (sort_reverse engagement_score
                  (scored_pool polarity np_sqrt spectral_centroid
                     zero_crossing_rate (get_segments transcript_data) y sr)))
         end ->
    exists seg,
      c = score seg
      /\ (In seg (_combine_segments (get_segments transcript_data) 30)
          /\ source c = str "combined"
          \/ In seg (get_segments transcript_data)
             /\ is_long seg = true
             /\ source c = own_source seg)).
  { intros c Hc.
    destruct (get_segments transcript_data) as [| seg0 segs] eqn:Eseg;
      [contradiction |].
    apply selected_in_pool in Hc. destruct Hc as [_ Hin].
    apply pool_origin in Hin. destruct Hin as [segment [-> [Hm | [Hin Hl]]]].
    - exists segment. split; [reflexivity |]. left.
      split; [exact Hm | now apply Hmerged].
    - exists segment. split; [reflexivity |]. right.
      repeat split; assumption. }
  split.
  - apply Forall_forall. exact G.
  - intros Hnone. apply Forall_forall. intros c Hc.
    destruct (G c Hc) as [seg [_ [[_ H] | [Hin [_ Hsrc]]]]]; [now left | right].
    rewrite Forall_forall in Hnone. unfold own_source in Hsrc.
    now rewrite (Hnone seg Hin) in Hsrc.
Qed.

(** * Further properties *)



(** The result of [sort_reverse] is the only list in non-increasing order
    of the key that keeps, for every key, the elements with that key in
    the order of the input: a stable sort can return nothing else. *)
Theorem sort_reverse_is_the_stable_sort
  (A : Type) (key : A -> Q) (l l' : list A)
  (sorted : StronglySorted (desc key) l')
  (stable : forall s, ties key s l' = ties key s l) :
  l' = sort_reverse key l.
Proof.
  apply (sorted_ties_unique A key); [exact sorted | apply sort_reverse_sorted |].
  intros s. now rewrite stable, sort_reverse_ties.
Qed.

Lemma sort_reverse_is_the_stable_sort_witness :
  [(2, 7%nat); (1, 3%nat); (1, 5%nat)]
  = sort_reverse fst [(1, 3%nat); (2, 7%nat); (1, 5%nat)].
Proof.
  apply (sort_reverse_is_the_stable_sort (Q * nat)%type fst).
  - repeat constructor; unfold desc; cbn; lra.
  - intros s. unfold ties. cbn [filter fst].
    destruct (Qeq_bool 2 s) eqn:E2, (Qeq_bool 1 s) eqn:E1; try reflexivity.
    apply Qeq_bool_iff in E1, E2. exfalso. lra.
Defined.

(** On the specification's scenario the selector returns three entries:
    the candidate merged from the three segments and the two segments that
    last 10 seconds or more.  *)
Theorem scenario_selection :
  exists out,
    analyze_engagement Samples.lexicon_polarity Samples.newton_sqrt
      Samples.flat_centroid Samples.flat_zcr
      {| segments_key := Some Samples.scenario |}
      Samples.waveform Samples.rate = Ok out
    /\ map (fun c => (start_time c, end_time c, duration c)) out
       = [(0, 45, 45); (0, 12, 12); (20, 45, 25)].
Proof.
  rewrite analyze_engagement_returns. eexists. split; [reflexivity |].
  vm_compute. reflexivity.
Qed.

(** * The rest of the pipeline: properties *)

(** ** The merger cuts the transcript into consecutive groups *)

Section MergePartition.

Variable segments : list Segment.
Variable target_duration : Q.

Lemma joined_text_snoc (group : list Segment) (segment : Segment) :
  joined_text (group ++ [segment])
  = joined_text group ++ str " " ++ strip (seg_text segment).
Proof.
  unfold joined_text. rewrite map_app, concat_app. simpl.
  now rewrite app_nil_r.
Qed.

Lemma long_spans_snoc (groups : list (list Segment)) (g : list Segment) :
  long_spans (groups ++ [g]) = long_spans groups ++ filter is_long (group_span g).
Proof.
  unfold long_spans. rewrite flat_map_app, filter_app. simpl.
  now rewrite app_nil_r.
Qed.

Lemma group_span_snoc (group : list Segment) (segment : Segment) :
  group_span (group ++ [segment])
  = [{| seg_id := None;
        seg_start := seg_start (hd segment (group ++ [segment]));
        seg_end := seg_end segment;
        seg_text := strip (joined_text (group ++ [segment]));
        seg_source := Some (str "combined") |}].
Proof.
  destruct group as [| first rest]; [reflexivity |].
  unfold group_span. cbn [app hd].
  change (first :: rest ++ [segment]) with ((first :: rest) ++ [segment]).
  now rewrite last_last.
Qed.

Lemma merge_step_inv (done : list Segment) (st : merge_state) (segment : Segment) :
  merge_inv done st ->
  merge_inv (done ++ [segment]) (merge_step segments target_duration st segment).
Proof.
  intros [groups [Hdone [Hne [Hout [Hstart Htext]]]]].
  assert (Hgs : group_start st segment
                = seg_start (hd segment (current_segments st ++ [segment]))).
  { unfold group_start. rewrite Hstart. now destruct (current_segments st). }
  assert (Hgt : group_text st segment
                = joined_text (current_segments st ++ [segment])).
  { unfold group_text. now rewrite Htext, joined_text_snoc. }
  unfold merge_step. destruct (group_closes _ _ st segment).
  - exists (groups ++ [current_segments st ++ [segment]]). simpl.
    rewrite concat_app. simpl. rewrite !app_nil_r.
    split; [now rewrite app_assoc, Hdone |].
    split; [apply Forall_app; split; [exact Hne |];
            constructor; [| constructor]; now destruct (current_segments st) |].
    split; [| split; reflexivity].
    rewrite long_spans_snoc, Hout.
    assert (Hspan : group_span (current_segments st ++ [segment])
                    = [group_candidate st segment]).
    { unfold group_candidate. rewrite Hgs, Hgt. apply group_span_snoc. }
    rewrite Hspan. cbn [filter].
    change (is_long (group_candidate st segment))
      with (Qle_bool 10 (group_duration st segment)).
    destruct (Qle_bool 10 (group_duration st segment));
      [reflexivity | now rewrite app_nil_r].
  - exists groups. simpl.
    split; [now rewrite app_assoc, Hdone |].
    split; [exact Hne |]. split; [exact Hout |].
    split; [| exact Hgt].
    rewrite Hgs. now destruct (current_segments st).
Qed.

Lemma merge_loop_inv (todo done : list Segment) (st : merge_state) :
  segments = done ++ todo ->
  merge_inv done st ->
  merge_inv segments (merge_loop segments target_duration st todo)
  /\ (todo <> [] ->
      current_segments (merge_loop segments target_duration st todo) = []).
Proof.
  revert done st. induction todo as [| segment rest IH]; intros done st E Hinv.
  - rewrite app_nil_r in E. subst done. split; [exact Hinv | congruence].
  - simpl. destruct (IH (done ++ [segment])
                        (merge_step segments target_duration st segment))
      as [Hfinal Hcur].
    + now rewrite <- app_assoc.
    + now apply merge_step_inv.
    + split; [exact Hfinal |]. intros _.
      destruct rest as [| r rest]; [| apply Hcur; discriminate].
      simpl. unfold merge_step, group_closes, last_segment.
      rewrite E, last_last, segment_eqb_refl, orb_true_r. reflexivity.
Qed.

End MergePartition.

Lemma combine_segments_groups
  (segments : list Segment) (target_duration : Q) :
  exists groups,
    concat groups = segments
    /\ Forall (fun g => g <> []) groups
    /\ _combine_segments segments target_duration = long_spans groups.
Proof.
  destruct (merge_loop_inv segments target_duration segments [] merge_init
              eq_refl) as [[groups [Hc [Hne [Hout _]]]] Hcur].
  { exists []. repeat split; constructor. }
  exists groups. split; [| split; [exact Hne | exact Hout]].
  destruct segments as [| s segs].
  - simpl in Hc. now destruct (concat groups).
  - rewrite Hcur in Hc by discriminate. now rewrite app_nil_r in Hc.
Qed.

(** The merger cuts the transcript into consecutive non-empty groups and
    returns, in order, the span of every group that lasts 10 seconds or
    more: a candidate starts with the first segment of its group, ends
    with the last one and carries the stripped texts of all of them,
    joined by spaces.  No segment is in two groups and none is left out
    of the grouping. *)
Theorem combine_segments_partition
  (segments : list Segment) (target_duration : Q) :
  exists groups,
    concat groups = segments
    /\ Forall (fun g => g <> []) groups
    /\ _combine_segments segments target_duration = long_spans groups.
Proof. apply combine_segments_groups. Qed.

(** ** The selector keeps the best candidates *)

Section SelectionFacts.

Variable A : Type.
Variable key : A -> Q.

Lemma insert_desc_perm (x : A) (l : list A) :
  Permutation (insert_desc key x l) (x :: l).
Proof.
  induction l as [| y l IH]; simpl; [reflexivity |].
  destruct (Qle_bool (key y) (key x)); [reflexivity |].
  rewrite IH. apply perm_swap.
Qed.

Lemma sort_reverse_perm (l : list A) : Permutation (sort_reverse key l) l.
Proof.
  induction l as [| x l IH]; simpl; [reflexivity |].
  rewrite insert_desc_perm. now constructor.
Qed.

Lemma filter_perm (p : A -> bool) (l l' : list A) :
  Permutation l l' -> Permutation (filter p l) (filter p l').
Proof.
  induction 1 as [| x l l' _ IH | x y l | l l' l'' _ IH1 _ IH2]; simpl.
  - reflexivity.
  - destruct (p x); [now constructor | exact IH].
  - destruct (p x), (p y); try reflexivity. apply perm_swap.
  - now transitivity (filter p l').
Qed.

Lemma sorted_app_desc (l1 l2 : list A) :
  StronglySorted (desc key) (l1 ++ l2) ->
  forall x y, In x l1 -> In y l2 -> key y <= key x.
Proof.
  induction l1 as [| z l1 IH]; intros Hs x y Hx Hy; [contradiction |].
  simpl in Hs. inversion Hs as [| ? ? Hs' Hall]; subst.
  destruct Hx as [-> | Hx].
  - rewrite Forall_forall in Hall. apply Hall, in_or_app. now right.
  - now apply IH.
Qed.

End SelectionFacts.

(** The selector returns the best of the suitable candidates: together
    with the ones it leaves out, the returned entries are the suitable
    entries of the scored pool; no entry left out has a higher score than
    a returned one; and entries are left out only when 10 are returned. *)
Theorem analyze_engagement_keeps_the_best
  (polarity : pystr -> Q) (np_sqrt : Q -> Q)
  (spectral_centroid : list Q -> Z -> list Q)
  (zero_crossing_rate : list Q -> list Q)
  (transcript_data : Transcript) (y : list Q) (sr : Z) :
  exists out rest,
    analyze_engagement polarity np_sqrt spectral_centroid zero_crossing_rate
      transcript_data y sr = Ok out
    /\ Permutation (out ++ rest)
         (filter is_suitable
            (scored_pool polarity np_sqrt spectral_centroid
               zero_crossing_rate (get_segments transcript_data) y sr))
    /\ (forall c c', In c out -> In c' rest ->
                     engagement_score c' <= engagement_score c)
    /\ (rest <> [] -> length out = 10%nat).
Proof.
  rewrite analyze_engagement_returns.
  set (pool := scored_pool _ _ _ _ _ _ _).
  set (ranked := filter is_suitable (sort_reverse engagement_score pool)).
  assert (Hperm : Permutation ranked (filter is_suitable pool))
    by apply filter_perm, sort_reverse_perm.
  assert (Hsorted : StronglySorted (desc engagement_score) ranked)
    by apply filter_sorted, sort_reverse_sorted.
  destruct (get_segments transcript_data) as [| seg segs] eqn:E.
  - exists [], []. repeat split; try reflexivity; try contradiction.
  - exists (firstn 10 ranked), (skipn 10 ranked).
    split; [reflexivity |]. rewrite firstn_skipn.
    split; [exact Hperm |]. split.
    + apply sorted_app_desc. now rewrite firstn_skipn.
    + intros Hrest. rewrite length_firstn.
      destruct (Nat.le_gt_cases (length ranked) 10) as [Hle | Hgt]; [| lia].
      exfalso. apply Hrest. now apply skipn_all2.
Qed.

(** ** Stripping *)

Lemma lstrip_idempotent (s : pystr) : lstrip (lstrip s) = lstrip s.
Proof.
  induction s as [| c s IH]; [reflexivity |].
  simpl. destruct (isspace c) eqn:E; [exact IH |].
  simpl. now rewrite E.
Qed.

Lemma lstrip_snoc (s : pystr) (c : N) :
  isspace c = false -> lstrip (s ++ [c]) = lstrip s ++ [c].
Proof.
  intros Hc. induction s as [| d s IH]; simpl.
  - now rewrite Hc.
  - destruct (isspace d); [exact IH | reflexivity].
Qed.

(** Stripping the right end keeps a left end that is already stripped. *)
Lemma lstrip_rstrip (s : pystr) : lstrip s = s -> lstrip (rstrip s) = rstrip s.
Proof.
  intros Hs. destruct s as [| c s]; [reflexivity |].
  assert (Hc : isspace c = false).
  { simpl in Hs. destruct (isspace c) eqn:E; [| reflexivity].
    exfalso. assert (Hlen : (length (lstrip s) <= length s)%nat).
    { clear. induction s as [| d s IH]; simpl; [lia |].
      destruct (isspace d); simpl; lia. }
    rewrite Hs in Hlen. simpl in Hlen. lia. }
  unfold rstrip. simpl rev. rewrite lstrip_snoc by exact Hc.
  rewrite rev_app_distr. simpl. now rewrite Hc.
Qed.

Lemma rstrip_idempotent (s : pystr) : rstrip (rstrip s) = rstrip s.
Proof.
  unfold rstrip. now rewrite rev_involutive, lstrip_idempotent.
Qed.

Lemma strip_trimmed (s : pystr) : trimmed (strip s).
Proof.
  unfold trimmed, strip. split.
  - apply lstrip_rstrip, lstrip_idempotent.
  - apply rstrip_idempotent.
Qed.

Lemma strip_of_trimmed (s : pystr) : trimmed s -> strip s = s.
Proof. intros [Hl Hr]. unfold strip. now rewrite Hl, Hr. Qed.

Lemma strip_idempotent (s : pystr) : strip (strip s) = strip s.
Proof. apply strip_of_trimmed, strip_trimmed. Qed.

Lemma strip_leading_space (s : pystr) : strip (str " " ++ s) = strip s.
Proof. reflexivity. Qed.

(** ** What every returned entry satisfies *)

(** When the numeric libraries return non-negative values, every entry the
    selector returns has a score between 0 and 1 and a text without
    whitespace at either end, and its time span is that of a group of
    consecutive transcript segments or of one transcript segment. *)
Theorem analyze_engagement_entries
  (polarity : pystr -> Q) (np_sqrt : Q -> Q)
  (spectral_centroid : list Q -> Z -> list Q)
  (zero_crossing_rate : list Q -> list Q)
  (np_sqrt_nonneg : forall x, 0 <= x -> 0 <= np_sqrt x)
  (centroid_nonneg :
     forall segment_audio sr, Forall (Qle 0) (spectral_centroid segment_audio sr))
  (zcr_nonneg :
     forall segment_audio, Forall (Qle 0) (zero_crossing_rate segment_audio))
  (transcript_data : Transcript) (y : list Q) (sr : Z) :
  exists out,
    analyze_engagement polarity np_sqrt spectral_centroid zero_crossing_rate
      transcript_data y sr = Ok out
    /\ Forall (fun c =>
         0 <= engagement_score c <= 1
         /\ trimmed (text c)
         /\ exists first last_one,
              In first (get_segments transcript_data)
              /\ In last_one (get_segments transcript_data)
              /\ start_time c = seg_start first
              /\ end_time c = seg_end last_one) out.
Proof.
  rewrite analyze_engagement_returns. eexists. split; [reflexivity |].
  destruct (get_segments transcript_data) as [| seg0 segs] eqn:E; [constructor |].
  apply Forall_forall. intros c Hc.
  apply selected_in_pool in Hc. destruct Hc as [_ Hin].
  apply pool_origin in Hin. destruct Hin as [segment [-> Horigin]].
  split; [| split].
  - unfold score_candidate. cbn [engagement_score].
    unfold _calculate_engagement_score. cbv zeta.
    pose proof (text_score_bounds polarity (strip (seg_text segment))) as Ht.
    pose proof (audio_score_bounds np_sqrt spectral_centroid
                  zero_crossing_rate np_sqrt_nonneg centroid_nonneg
                  zcr_nonneg y sr (seg_start segment) (seg_end segment)) as Ha.
    split.
    + apply py_min_glb; lra.
    + eapply Qle_trans; [apply py_min_le_r | lra].
  - apply strip_trimmed.
  - cbn [score_candidate start_time end_time].
    destruct Horigin as [Hm | [Hin _]].
    + destruct (combine_segments_groups (seg0 :: segs) 30)
        as [groups [Hcat [_ Hout]]].
      rewrite Hout in Hm. unfold long_spans in Hm.
      apply filter_In in Hm. destruct Hm as [Hm _].
      apply in_flat_map in Hm. destruct Hm as [g [Hg Hspan]].
      destruct g as [| first rest]; [contradiction |].
      destruct Hspan as [<- | []]. cbn [seg_start seg_end].
      assert (Hsub : forall s, In s (first :: rest) -> In s (seg0 :: segs)).
      { intros s Hs. rewrite <- Hcat. apply in_concat. now exists (first :: rest). }
      exists first, (last (first :: rest) first).
      repeat split; apply Hsub; [now left |].
      destruct (exists_last (l := first :: rest) ltac:(discriminate))
        as [l' [a Ha]].
      rewrite Ha, last_last. apply in_or_app. right. now left.
    + exists segment, segment. repeat split; assumption.
Qed.

Lemma analyze_engagement_entries_witness :
  exists out,
    analyze_engagement Samples.lexicon_polarity Samples.newton_sqrt
      Samples.flat_centroid Samples.flat_zcr
      {| segments_key := Some Samples.scenario |}
      Samples.waveform Samples.rate = Ok out
    /\ Forall (fun c =>
         0 <= engagement_score c <= 1
         /\ trimmed (text c)
         /\ exists first last_one,
              In first (get_segments {| segments_key := Some Samples.scenario |})
              /\ In last_one
                   (get_segments {| segments_key := Some Samples.scenario |})
              /\ start_time c = seg_start first
              /\ end_time c = seg_end last_one) out.
Proof.
  assert (H1 : forall x, 0 <= x -> 0 <= Samples.newton_sqrt x)
    by (intros x Hx; unfold Samples.newton_sqrt; lra).
  assert (H2 : forall segment_audio sr,
             Forall (Qle 0) (Samples.flat_centroid segment_audio sr))
    by (intros; repeat constructor; discriminate).
  assert (H3 : forall segment_audio,
             Forall (Qle 0) (Samples.flat_zcr segment_audio))
    by (intros; repeat constructor; discriminate).
  exact (analyze_engagement_entries Samples.lexicon_polarity
           Samples.newton_sqrt Samples.flat_centroid Samples.flat_zcr
           H1 H2 H3 {| segments_key := Some Samples.scenario |}
           Samples.waveform Samples.rate).
Defined.

(** ** A transcript of one segment *)

(** A transcript of a single segment that lasts between 10 and 60 seconds
    gives two entries with the same span, text and score: the segment as
    the merger's only group, then the segment on its own.  The pool is not
    deduplicated. *)
Theorem analyze_engagement_single_segment
  (polarity : pystr -> Q) (np_sqrt : Q -> Q)
  (spectral_centroid : list Q -> Z -> list Q)
  (zero_crossing_rate : list Q -> list Q)
  (segment : Segment) (y : list Q) (sr : Z)
  (long_enough : 10 <= seg_end segment - seg_start segment)
  (short_enough : seg_end segment - seg_start segment <= 60) :
  let merged := {| seg_id := None;
                   seg_start := seg_start segment;
                   seg_end := seg_end segment;
                   seg_text := strip (seg_text segment);
                   seg_source := Some (str "combined") |} in
  let score := score_candidate polarity np_sqrt spectral_centroid
                 zero_crossing_rate y sr in
  analyze_engagement polarity np_sqrt spectral_centroid zero_crossing_rate
    {| segments_key := Some [segment] |} y sr
  = Ok [score merged; score segment]
  /\ start_time (score merged) = start_time (score segment)
  /\ end_time (score merged) = end_time (score segment)
  /\ text (score merged) = text (score segment)
  /\ engagement_score (score merged) = engagement_score (score segment).
Proof.
  intros merged score.
  assert (Hlong : Qle_bool 10 (seg_end segment - seg_start segment) = true)
    by now apply Qle_bool_iff.
  assert (Hshort : Qle_bool (seg_end segment - seg_start segment) 60 = true)
    by now apply Qle_bool_iff.
  assert (Htext : text (score merged) = text (score segment)).
  { unfold score, score_candidate, merged. cbn [text seg_text].
    apply strip_idempotent. }
  assert (Hscore : engagement_score (score merged)
                   = engagement_score (score segment)).
  { unfold score, score_candidate, merged.
    cbn [engagement_score seg_text seg_start seg_end].
    now rewrite strip_idempotent. }
  repeat split; try assumption.
  rewrite analyze_engagement_returns. cbn [get_segments segments_key].
  f_equal.
  assert (Hmerge : _combine_segments [segment] 30 = [merged]).
  { unfold _combine_segments, merge_loop. cbn [fold_left].
    unfold merge_step, group_closes, last_segment. cbn [last].
    rewrite segment_eqb_refl, orb_true_r.
    unfold group_duration, group_start, merge_init. cbn [current_start].
    rewrite Hlong. cbn [combined app].
    unfold group_candidate, group_text, group_start, merged.
    cbn [current_text current_start app].
    now rewrite strip_leading_space, strip_idempotent. }
  unfold scored_pool, all_candidates. rewrite Hmerge.
  cbn [filter]. unfold is_long at 1. rewrite Hlong.
  cbn [app map sort_reverse insert_desc]. fold score.
  rewrite Hscore.
  rewrite (proj2 (Qle_bool_iff _ _) (Qle_refl _)).
  assert (Hs1 : is_suitable (score merged) = true).
  { unfold is_suitable, score, score_candidate, merged.
    cbn [duration seg_start seg_end]. now rewrite Hlong, Hshort. }
  assert (Hs2 : is_suitable (score segment) = true).
  { unfold is_suitable, score, score_candidate.
    cbn [duration]. now rewrite Hlong, Hshort. }
  cbn [filter]. now rewrite Hs1, Hs2.
Qed.

Lemma analyze_engagement_single_segment_witness :
  analyze_engagement Samples.lexicon_polarity Samples.newton_sqrt
    Samples.flat_centroid Samples.flat_zcr
    {| segments_key := Some [Samples.seg 0 12 "This is amazing!"] |}
    Samples.waveform Samples.rate
  = Ok [score_candidate Samples.lexicon_polarity Samples.newton_sqrt
          Samples.flat_centroid Samples.flat_zcr Samples.waveform Samples.rate
          {| seg_id := None; seg_start := 0; seg_end := 12;
             seg_text := strip (str "This is amazing!");
             seg_source := Some (str "combined") |};
        score_candidate Samples.lexicon_polarity Samples.newton_sqrt
          Samples.flat_centroid Samples.flat_zcr Samples.waveform Samples.rate
          (Samples.seg 0 12 "This is amazing!")].
Proof.
  assert (H1 : 10 <= 12 - 0) by lra.
  assert (H2 : 12 - 0 <= 60) by lra.
  exact (proj1 (analyze_engagement_single_segment Samples.lexicon_polarity
                  Samples.newton_sqrt Samples.flat_centroid Samples.flat_zcr
                  (Samples.seg 0 12 "This is amazing!")
                  Samples.waveform Samples.rate H1 H2)).
Defined.

(** ** Audio spans with no samples *)

Lemma py_int_monotone (x y : Q) :
  0 <= x -> x <= y -> (py_int x <= py_int y)%Z.
Proof.
  intros Hx Hxy.
  destruct (py_int_truncates x Hx) as [_ [Hlo _]].
  destruct (py_int_truncates y ltac:(lra)) as [_ [_ Hhi]].
  assert (H : inject_Z (py_int x) < inject_Z (py_int y + 1)).
  { rewrite inject_Z_plus. change (inject_Z 1) with 1. lra. }
  rewrite <- Zlt_Qlt in H. lia.
Qed.

Lemma py_int_above (n : Z) (x : Q) :
  inject_Z n <= x -> (n <= py_int x)%Z.
Proof.
  intros H.
  destruct (Z.le_gt_cases 0 n) as [Hn | Hn].
  - assert (Hx : 0 <= x).
    { eapply Qle_trans; [| exact H]. change 0 with (inject_Z 0).
      now rewrite <- Zle_Qle. }
    destruct (py_int_truncates x Hx) as [_ [_ Hhi]].
    assert (H' : inject_Z n < inject_Z (py_int x + 1)).
    { rewrite inject_Z_plus. change (inject_Z 1) with 1. lra. }
    rewrite <- Zlt_Qlt in H'. lia.
  - destruct x as [a d]. unfold py_int. simpl.
    unfold Qle in H. simpl in H.
    destruct (Z.le_gt_cases 0 a) as [Ha | Ha].
    + pose proof (Z.quot_pos a (Z.pos d) Ha ltac:(lia)). lia.
    + rewrite <- (Z.opp_involutive a), Z.quot_opp_l by lia.
      rewrite Z.quot_div_nonneg by lia.
      assert (- a / Z.pos d <= - n)%Z; [| lia].
      apply Z.div_le_upper_bound; nia.
Qed.

(** For non-negative times and sample rate, the audio score is 0 when the
    span ends no later than it starts, and when it starts at or after the
    end of the waveform: the slice has no sample and no feature is
    computed. *)
Theorem audio_score_of_empty_span
  (np_sqrt : Q -> Q)
  (spectral_centroid : list Q -> Z -> list Q)
  (zero_crossing_rate : list Q -> list Q)
  (audio : list Q) (sample_rate : Z) (start_time end_time : Q)
  (rate_nonneg : (0 <= sample_rate)%Z)
  (start_nonneg : 0 <= start_time) (end_nonneg : 0 <= end_time)
  (no_sample : end_time <= start_time
               \/ of_len (length audio) <= start_time * of_int sample_rate) :
  audio_segment audio sample_rate start_time end_time = []
  /\ _analyze_audio_engagement np_sqrt spectral_centroid zero_crossing_rate
       audio sample_rate start_time end_time = 0.0.
Proof.
  assert (Hr : 0 <= of_int sample_rate).
  { unfold of_int. change 0 with (inject_Z 0). now rewrite <- Zle_Qle. }
  assert (Hs : 0 <= start_time * of_int sample_rate) by nra.
  assert (He : 0 <= end_time * of_int sample_rate) by nra.
  destruct (py_int_truncates _ Hs) as [Ha _].
  destruct (py_int_truncates _ He) as [Hb _].
  assert (Hempty : audio_segment audio sample_rate start_time end_time = []).
  { unfold audio_segment. rewrite py_slice_nonneg by assumption.
    destruct no_sample as [Hle | Hout].
    - assert (py_int (end_time * of_int sample_rate)
              <= py_int (start_time * of_int sample_rate))%Z
        by (apply py_int_monotone; [exact He | nra]).
      replace (Z.to_nat _ - Z.to_nat _)%nat with 0%nat by lia.
      reflexivity.
    - apply py_int_above in Hout.
      rewrite skipn_all2 by lia. apply firstn_nil. }
  split; [exact Hempty |].
  unfold _analyze_audio_engagement. now rewrite Hempty.
Qed.

Lemma audio_score_of_empty_span_witness :
  audio_segment Samples.waveform Samples.rate 60 70 = []
  /\ _analyze_audio_engagement Samples.newton_sqrt Samples.flat_centroid
       Samples.flat_zcr Samples.waveform Samples.rate 60 70 = 0.0.
Proof.
  assert (H1 : (0 <= Samples.rate)%Z) by (unfold Samples.rate; lia).
  assert (H2 : 0 <= 60) by lra.
  assert (H3 : 0 <= 70) by lra.
  assert (H4 : 70 <= 60
               \/ of_len (length Samples.waveform)
                  <= 60 * of_int Samples.rate)
    by (right; vm_compute; discriminate).
  exact (audio_score_of_empty_span Samples.newton_sqrt Samples.flat_centroid
           Samples.flat_zcr Samples.waveform Samples.rate 60 70 H1 H2 H3 H4).
Defined.

(** ** File names *)

Lemma replace_char_In (old new c : N) (s : pystr) :
  In c (replace_char old new s) ->
  c = new /\ In old s \/ c <> old /\ In c s.
Proof.
  unfold replace_char. intros H. apply in_map_iff in H.
  destruct H as [d [Hd Hin]]. destruct (N.eqb_spec d old) as [E | Hne].
  - left. subst d. now split.
  - right. rewrite <- Hd. now split.
Qed.

Lemma remove_class_In (cls : N -> bool) (c : N) (s : pystr) :
  In c (remove_class cls s) <-> In c s /\ cls c = false.
Proof.
  unfold remove_class. rewrite filter_In. now rewrite negb_true_iff.
Qed.

Lemma sanitize_filename_firstn (filename : pystr) :
  sanitize_filename filename
  = firstn 80
      (remove_class not_printable
         (replace_char 8211 45 (replace_char 8212 45
            (replace_char 8217 39 (replace_char 8216 39
               (replace_char 8221 34 (replace_char 8220 34
                  (remove_class unsafe_char
                     (replace_char 32 95 filename))))))))).
Proof.
  unfold sanitize_filename. cbv zeta. rewrite py_slice_nonneg by lia.
  reflexivity.
Qed.

Lemma sanitize_filename_length (filename : pystr) :
  (length (sanitize_filename filename) <= 80)%nat.
Proof. rewrite sanitize_filename_firstn, length_firstn. lia. Qed.

Lemma sanitize_filename_In (c : N) (filename : pystr) :
  In c (sanitize_filename filename) ->
  (32 < c <= 126)%N
  /\ ~ In c [92; 47; 58; 42; 63; 60; 62; 124]%N
  /\ (c = 34%N -> In 8220%N filename \/ In 8221%N filename).
Proof.
  rewrite sanitize_filename_firstn. intros Hc.
  - assert (Hc' : In c (remove_class not_printable
         (replace_char 8211 45 (replace_char 8212 45
            (replace_char 8217 39 (replace_char 8216 39
               (replace_char 8221 34 (replace_char 8220 34
                  (remove_class unsafe_char
                     (replace_char 32 95 filename)))))))))).
    { rewrite <- (firstn_skipn 80). apply in_or_app. now left. }
    clear Hc. apply remove_class_In in Hc'. destruct Hc' as [Hin Hprint].
    unfold not_printable in Hprint. apply negb_false_iff in Hprint.
    apply andb_true_iff in Hprint. destruct Hprint as [Hlo Hhi].
    apply N.leb_le in Hlo, Hhi.
    assert (Hsrc : c = 45%N \/ c = 39%N
                   \/ c = 34%N /\ (In 8220%N filename \/ In 8221%N filename)
                   \/ (unsafe_char c = false /\ c <> 32%N)).
    { apply replace_char_In in Hin. destruct Hin as [[-> _] | [_ Hin]]; [now left |].
      apply replace_char_In in Hin. destruct Hin as [[-> _] | [_ Hin]]; [now left |].
      apply replace_char_In in Hin.
      destruct Hin as [[-> _] | [_ Hin]]; [now right; left |].
      apply replace_char_In in Hin.
      destruct Hin as [[-> _] | [_ Hin]]; [now right; left |].
      assert (Hkept : forall q, In q (remove_class unsafe_char
                                        (replace_char 32 95 filename)) ->
                                In q filename \/ q = 95%N).
      { intros q Hq. apply remove_class_In in Hq. destruct Hq as [Hq _].
        apply replace_char_In in Hq. destruct Hq as [[-> _] | [_ Hq]]; auto. }
      apply replace_char_In in Hin. destruct Hin as [[-> Hin] | [_ Hin]].
      - right; right; left. split; [reflexivity |]. right.
        apply replace_char_In in Hin.
        destruct Hin as [[Habs _] | [_ Hin]]; [discriminate Habs |].
        destruct (Hkept _ Hin) as [H | H]; [exact H | discriminate H].
      - apply replace_char_In in Hin. destruct Hin as [[-> Hin] | [_ Hin]].
        + right; right; left. split; [reflexivity |]. left.
          destruct (Hkept _ Hin) as [H | H]; [exact H | discriminate H].
        + right; right; right. apply remove_class_In in Hin.
          destruct Hin as [Hin Hsafe]. split; [exact Hsafe |].
          apply replace_char_In in Hin.
          destruct Hin as [[-> _] | [Hne _]]; [discriminate | exact Hne]. }
    destruct Hsrc as [-> | [-> | [[-> Hq] | [Hsafe Hsp]]]].
    + split; [lia |]. split; [simpl; intuition discriminate | discriminate].
    + split; [lia |]. split; [simpl; intuition discriminate | discriminate].
    + split; [lia |]. split; [simpl; intuition discriminate | now intros _].
    + split; [lia |]. split.
      * intros Hbad. simpl in Hbad.
        repeat (destruct Hbad as [<- | Hbad]; [discriminate Hsafe |]).
        exact Hbad.
      * intros ->. discriminate Hsafe.
Qed.

(** The sanitized name has at most 80 code points, all of them printable
    ASCII; it has no space, slash, backslash, colon, star, question mark,
    angle bracket, bar or control character.  A double quote can be in it
    only where the name had a curly double quote, which is replaced after
    the unsafe characters are removed. *)
Theorem sanitize_filename_safe (filename : pystr) :
  (length (sanitize_filename filename) <= 80)%nat
  /\ Forall (fun c =>
       (32 < c <= 126)%N
       /\ ~ In c [92; 47; 58; 42; 63; 60; 62; 124]%N
       /\ (c = 34%N -> In 8220%N filename \/ In 8221%N filename))
     (sanitize_filename filename).
Proof.
  split; [apply sanitize_filename_length |].
  apply Forall_forall. intros c Hc.
  exact (sanitize_filename_In c filename Hc).
Qed.

Lemma replace_char_absent (old new : N) (s : pystr) :
  ~ In old s -> replace_char old new s = s.
Proof.
  intros H. unfold replace_char. rewrite <- (map_id s) at 2.
  apply map_ext_in. intros c Hc.
  destruct (N.eqb_spec c old) as [-> | _]; [contradiction | reflexivity].
Qed.

Lemma remove_class_none (cls : N -> bool) (s : pystr) :
  Forall (fun c => cls c = false) s -> remove_class cls s = s.
Proof.
  intros H. unfold remove_class. induction H as [| c s Hc _ IH]; simpl;
    [reflexivity |].
  now rewrite Hc, IH.
Qed.

Lemma plain_char_spec (c : N) :
  plain_char c = true ->
  (32 < c <= 126)%N /\ unsafe_char c = false.
Proof.
  unfold plain_char. intros H. apply andb_true_iff in H. destruct H as [H1 H2].
  apply andb_true_iff in H1. destruct H1 as [Hlo Hhi].
  apply N.ltb_lt in Hlo. apply N.leb_le in Hhi.
  apply negb_true_iff in H2. now repeat split.
Qed.

Lemma sanitize_filename_plain_fixed (filename : pystr)
  (Hall : forall c, In c filename ->
                    (32 < c <= 126)%N /\ unsafe_char c = false)
  (short : (length filename <= 80)%nat) :
  sanitize_filename filename = filename.
Proof.
  rewrite sanitize_filename_firstn.
  assert (Habsent : forall q, (q <= 32 \/ 126 < q)%N -> ~ In q filename).
  { intros q Hq Hin. destruct (Hall q Hin) as [Hr _]. lia. }
  rewrite (replace_char_absent 32) by (apply Habsent; lia).
  rewrite (remove_class_none unsafe_char)
    by (apply Forall_forall; intros c Hc; now destruct (Hall c Hc)).
  rewrite (replace_char_absent 8220) by (apply Habsent; lia).
  rewrite (replace_char_absent 8221) by (apply Habsent; lia).
  rewrite (replace_char_absent 8216) by (apply Habsent; lia).
  rewrite (replace_char_absent 8217) by (apply Habsent; lia).
  rewrite (replace_char_absent 8212) by (apply Habsent; lia).
  rewrite (replace_char_absent 8211) by (apply Habsent; lia).
  rewrite remove_class_none.
  - now apply firstn_all2.
  - apply Forall_forall. intros c Hc. destruct (Hall c Hc) as [Hr _].
    unfold not_printable. apply negb_false_iff, andb_true_iff.
    split; apply N.leb_le; lia.
Qed.

(** A name of at most 80 printable ASCII code points, none of them a
    space or an unsafe character, is returned as it is. *)
Theorem sanitize_filename_fixes_plain_names (filename : pystr)
  (plain : forallb plain_char filename = true)
  (short : (length filename <= 80)%nat) :
  sanitize_filename filename = filename.
Proof.
  apply sanitize_filename_plain_fixed; [| exact short].
  intros c Hc. apply plain_char_spec.
  rewrite forallb_forall in plain. exact (plain c Hc).
Qed.

Lemma sanitize_filename_fixes_plain_names_witness :
  sanitize_filename (str "Big_Buck_Bunny-trailer.(2008)")
  = str "Big_Buck_Bunny-trailer.(2008)".
Proof.
  apply sanitize_filename_fixes_plain_names.
  - vm_compute. reflexivity.
  - vm_compute. lia.
Defined.

Lemma sanitize_filename_plain (filename : pystr) :
  ~ In 8220%N filename -> ~ In 8221%N filename ->
  forallb plain_char (sanitize_filename filename) = true.
Proof.
  intros H1 H2. apply forallb_forall. intros c Hc.
  destruct (sanitize_filename_In c filename Hc) as [Hr [Hbad Hq]].
  unfold plain_char. apply andb_true_iff. split.
  - apply andb_true_iff. split; [apply N.ltb_lt | apply N.leb_le]; lia.
  - apply negb_true_iff. unfold unsafe_char.
    destruct (existsb (N.eqb c) _) eqn:E; [| reflexivity].
    exfalso. apply existsb_exists in E. destruct E as [q [Hin Heq]].
    apply N.eqb_eq in Heq. subst q. simpl in Hin.
    repeat (destruct Hin as [<- | Hin];
            [first [ solve [apply Hbad; simpl; tauto]
                   | solve [destruct (Hq eq_refl); contradiction]
                   | lia ] |]).
    contradiction.
Qed.

(** On a name without curly double quotes, sanitizing twice is sanitizing
    once.  (A curly double quote becomes a straight one, which a second
    pass removes.) *)
Theorem sanitize_filename_idempotent (filename : pystr)
  (no_left_quote : ~ In 8220%N filename)
  (no_right_quote : ~ In 8221%N filename) :
  sanitize_filename (sanitize_filename filename) = sanitize_filename filename.
Proof.
  apply sanitize_filename_plain_fixed.
  - intros c Hc. apply plain_char_spec.
    pose proof (sanitize_filename_plain filename no_left_quote no_right_quote)
      as Hplain.
    rewrite forallb_forall in Hplain. exact (Hplain c Hc).
  - apply sanitize_filename_length.
Qed.

Lemma sanitize_filename_idempotent_witness :
  sanitize_filename (sanitize_filename (str "What? A day: part 1/2"))
  = sanitize_filename (str "What? A day: part 1/2").
Proof.
  apply sanitize_filename_idempotent; vm_compute; intuition discriminate.
Defined.

(** The file a download is saved to.  When [yt-dlp --get-title] raised,
    or when nothing is left of the title it printed once that is stripped
    and sanitized, the file is [<video_type>_<video_type>_video.mp4].
    Otherwise it is [<video_type>_<title>.mp4], the title being what
    [yt-dlp] printed, stripped and sanitized: at most 80 printable ASCII
    code points with no space, slash or backslash.  The part between
    [<video_type>_] and [.mp4] is never empty. *)
Theorem download_filename_shape (video_type stdout : pystr) :
  let default := video_type ++ str "_video" in
  let title := sanitize_filename (strip stdout) in
  download_filename video_type None
  = video_type ++ str "_" ++ default ++ str ".mp4"
  /\ (title = [] ->
      download_filename video_type (Some stdout)
      = video_type ++ str "_" ++ default ++ str ".mp4")
  /\ (title <> [] ->
      download_filename video_type (Some stdout)
      = video_type ++ str "_" ++ title ++ str ".mp4")
  /\ (length title <= 80)%nat
  /\ Forall (fun c => (32 < c <= 126)%N /\ c <> 47%N /\ c <> 92%N) title
  /\ default <> [].
Proof.
  intros default title.
  split; [reflexivity |].
  split.
  { intros E. unfold download_filename, download_title. cbv zeta.
    fold title. now rewrite E. }
  split.
  { intros Hne. unfold download_filename, download_title. cbv zeta.
    fold title. destruct title as [| c rest]; [congruence | reflexivity]. }
  split; [apply sanitize_filename_length |].
  split.
  - apply Forall_forall. intros q Hq.
    destruct (sanitize_filename_In q _ Hq) as [Hr [Hbad _]].
    split; [exact Hr |]. split; intros ->; apply Hbad; simpl; tauto.
  - intros H. apply (f_equal (@length N)) in H. unfold default in H.
    rewrite length_app in H. simpl in H. lia.
Qed.

(** ** Words *)

Lemma split_from_word (w cur s : pystr) :
  forallb (fun c => negb (isspace c)) w = true ->
  split_from cur (w ++ s) = split_from (cur ++ w) s.
Proof.
  revert cur. induction w as [| c w IH]; intros cur Hw; simpl.
  - now rewrite app_nil_r.
  - simpl in Hw. apply andb_true_iff in Hw. destruct Hw as [Hc Hw].
    apply negb_true_iff in Hc. rewrite Hc, IH by exact Hw.
    now rewrite <- app_assoc.
Qed.

Lemma split_join (words : list pystr) :
  Forall is_word words -> split (join (str " ") words) = words.
Proof.
  unfold split. induction 1 as [| w rest [Hne Hw] Hrest IH]; [reflexivity |].
  cbn [join]. destruct rest as [| w' rest].
  - rewrite <- (app_nil_r w) at 1. rewrite split_from_word by exact Hw.
    simpl. now destruct w.
  - rewrite split_from_word by exact Hw. cbn [app str].
    change (str " " ++ join (str " ") (w' :: rest))
      with (32%N :: join (str " ") (w' :: rest)).
    cbn [split_from]. change (isspace 32) with true. cbv iota.
    rewrite IH. now destruct w.
Qed.

Lemma split_from_words (s cur : pystr) :
  forallb (fun c => negb (isspace c)) cur = true ->
  Forall is_word (split_from cur s).
Proof.
  revert cur. induction s as [| c s IH]; intros cur Hcur; simpl.
  - destruct cur; constructor; [| constructor]. split; [discriminate | exact Hcur].
  - destruct (isspace c) eqn:Ec.
    + destruct cur as [| d cur]; [now apply IH |].
      constructor; [split; [discriminate | exact Hcur] | now apply IH].
    + apply IH. rewrite forallb_app, Hcur. simpl. now rewrite Ec.
Qed.

Lemma split_words (s : pystr) : Forall is_word (split s).
Proof. now apply split_from_words. Qed.

(** ** Runs of words *)

Lemma runs_of_nil (fuel n : nat) : runs_of fuel n [] = [].
Proof. now destruct fuel. Qed.

Lemma runs_of_spec (n : nat) (words : list pystr) (fuel : nat) :
  (0 < n)%nat -> (length words <= fuel)%nat ->
  concat (runs_of fuel n words) = words
  /\ Forall (fun run => (1 <= length run <= n)%nat) (runs_of fuel n words)
  /\ (length words <= n * length (runs_of fuel n words) < length words + n)%nat.
Proof.
  intros Hn. revert words. induction fuel as [| fuel IH]; intros words Hfuel.
  - destruct words; [| simpl in Hfuel; lia]. simpl. repeat split; try lia.
    constructor.
  - destruct words as [| w words].
    + simpl. repeat split; try lia. constructor.
    + cbn [runs_of].
      destruct (IH (skipn n (w :: words))) as [Hcat [Hall Hlen]].
      { rewrite length_skipn. cbn [length] in *. lia. }
      split; [| split].
      * cbn [concat]. rewrite Hcat. apply firstn_skipn.
      * constructor; [| exact Hall].
        rewrite length_firstn. simpl. lia.
      * rewrite length_skipn in Hlen. cbn [length] in *.
        set (k := length (runs_of fuel n (skipn n (w :: words)))) in *.
        destruct (Nat.le_gt_cases n (S (length words))) as [Hle | Hgt].
        -- replace (n * S k)%nat with (n * k + n)%nat by lia. lia.
        -- replace (S (length words) - n)%nat with 0%nat in Hlen by lia.
           assert (k = 0%nat) by nia. subst k. lia.
Qed.

Lemma range_up_runs (n : Z) (words : list pystr) (fuel : nat) (i : Z) :
  (0 < n)%Z -> (0 <= i)%Z ->
  map (fun i => py_slice words i (i + n))
      (range_up fuel i (Z.of_nat (length words)) n)
  = runs_of fuel (Z.to_nat n) (skipn (Z.to_nat i) words).
Proof.
  intros Hn. revert i. induction fuel as [| fuel IH]; intros i Hi; [reflexivity |].
  cbn [range_up runs_of].
  destruct (Z.ltb_spec i (Z.of_nat (length words))) as [Hlt | Hge].
  - destruct (skipn (Z.to_nat i) words) as [| w rest] eqn:E.
    + exfalso. apply (f_equal (@length pystr)) in E.
      rewrite length_skipn in E. simpl in E. lia.
    + cbn [map]. rewrite <- E. f_equal.
      * rewrite py_slice_nonneg by lia. f_equal. lia.
      * rewrite IH by lia. rewrite skipn_skipn. f_equal. f_equal. lia.
  - rewrite skipn_all2 by lia. reflexivity.
Qed.

Lemma split_joined_runs (runs : list (list pystr)) :
  Forall (Forall is_word) runs ->
  flat_map split (map (join (str " ")) runs) = concat runs.
Proof.
  induction 1 as [| run runs Hrun _ IH]; [reflexivity |].
  cbn [map flat_map concat]. now rewrite split_join, IH.
Qed.

(** ** Chunks of subtitle text *)

Lemma chunk_text_runs (text : pystr) (n : Z) (Hn : (0 < n)%Z) :
  exists chunks,
    chunk_text text n = Some chunks
    /\ flat_map split chunks = split text
    /\ Forall (fun chunk => (1 <= length (split chunk) <= Z.to_nat n)%nat)
         chunks
    /\ (length (split text) <= Z.to_nat n * length chunks
        < length (split text) + Z.to_nat n)%nat.
Proof.
  set (words := split text).
  assert (Hchunks : chunk_text text n
            = Some (map (join (str " "))
                      (runs_of (length words) (Z.to_nat n) words))).
  { unfold chunk_text, py_range. fold words.
    destruct (Z.eqb_spec n 0) as [E | _]; [lia |].
    destruct (Z.ltb_spec 0 n) as [_ | E]; [| lia].
    f_equal. rewrite Z.sub_0_r, Nat2Z.id.
    rewrite <- (map_map (fun i => py_slice words i (i + n)) (join (str " "))).
    now rewrite range_up_runs by lia. }
  destruct (runs_of_spec (Z.to_nat n) words (length words)) as [Hcat [Hall Hlen]];
    [lia | lia |].
  assert (Hwords : Forall (Forall is_word)
                     (runs_of (length words) (Z.to_nat n) words)).
  { apply Forall_forall. intros run Hrun. apply Forall_forall. intros w Hw.
    pose proof (split_words text) as Hsw. rewrite Forall_forall in Hsw.
    apply Hsw. fold words. rewrite <- Hcat. apply in_concat. now exists run. }
  exists (map (join (str " ")) (runs_of (length words) (Z.to_nat n) words)).
  split; [exact Hchunks |]. split; [| split].
  - rewrite (split_joined_runs _ Hwords). exact Hcat.
  - clear Hcat Hlen Hchunks.
    induction Hwords as [| run runs Hrun _ IH]; [constructor |].
    inversion Hall; subst. cbn [map]. constructor; [| now apply IH].
    now rewrite split_join.
  - now rewrite length_map.
Qed.


(** ** Subtitle timing *)

Lemma of_len_succ (n : nat) : of_len (S n) == of_len n + 1.
Proof.
  unfold of_len. rewrite Nat2Z.inj_succ, <- Z.add_1_r, inject_Z_plus.
  reflexivity.
Qed.

Lemma of_len_monotone (n m : nat) : (n <= m)%nat -> of_len n <= of_len m.
Proof. intros H. unfold of_len. rewrite <- Zle_Qle. lia. Qed.

Lemma tiles_from (from from' to : Q) (subs : list subtitle) :
  from == from' -> tiles from to subs -> tiles from' to subs.
Proof.
  intros E. destruct subs as [| [[a b] t] rest]; simpl.
  - intros H. now rewrite <- E.
  - intros [Ha Hrest]. split; [now rewrite Ha | exact Hrest].
Qed.

Lemma tiles_to (from to to' : Q) (subs : list subtitle) :
  to == to' -> tiles from to subs -> tiles from to' subs.
Proof.
  intros E. revert from. induction subs as [| [[a b] t] rest IH]; intros from; simpl.
  - intros H. now rewrite H.
  - intros [Ha Hrest]. split; [exact Ha | now apply IH].
Qed.

Section ChunkTiming.

Variable sub_start : Q.
Variable chunk_duration : Q.

Lemma timed_texts (chunks : list pystr) (i : nat) :
  map snd (map (timed sub_start chunk_duration) (combine (seq i (length chunks)) chunks)) = chunks.
Proof.
  revert i. induction chunks as [| c chunks IH]; intros i; [reflexivity |].
  simpl. now rewrite IH.
Qed.

Lemma timed_tiles (chunks : list pystr) (i : nat) :
  tiles (sub_start + of_len i * chunk_duration)
        (sub_start + of_len (i + length chunks) * chunk_duration)
        (map (timed sub_start chunk_duration) (combine (seq i (length chunks)) chunks)).
Proof.
  revert i. induction chunks as [| c chunks IH]; intros i.
  - simpl. now rewrite Nat.add_0_r.
  - cbn [length seq combine map timed tiles]. split; [reflexivity |].
    eapply tiles_from; [| eapply tiles_to; [| apply (IH (S i))]].
    + rewrite of_len_succ. ring.
    + now rewrite Nat.add_succ_r.
Qed.

Lemma timed_In (chunks : list pystr) (a b : Q) (c : pystr) :
  In ((a, b), c) (map (timed sub_start chunk_duration) (enumerate chunks)) ->
  exists idx, (idx < length chunks)%nat
              /\ a = sub_start + of_len idx * chunk_duration
              /\ b = a + chunk_duration.
Proof.
  intros H. apply in_map_iff in H. destruct H as [[idx chunk] [E Hin]].
  unfold enumerate in Hin. apply in_combine_l in Hin. apply in_seq in Hin.
  exists idx. simpl in E. inversion E; subst. repeat split. lia.
Qed.

End ChunkTiming.

Lemma chunk_subtitle_returns (sub_start sub_end : Q) (text : pystr) :
  exists chunks,
    chunk_text text 3 = Some chunks
    /\ (chunks = [] <-> split text = [])
    /\ chunk_subtitle ((sub_start, sub_end), text)
       = Some (map (timed sub_start
                      ((sub_end - sub_start)
                       / of_len (Nat.max (length chunks) 1)))
                   (enumerate chunks)).
Proof.
  destruct (chunk_text_runs text 3 eq_refl) as [chunks [Hc [_ [_ Hlen]]]].
  exists chunks. split; [exact Hc |]. split.
  - split.
    + intros ->. simpl in Hlen. destruct (split text); [reflexivity |].
      simpl in Hlen. lia.
    + intros E. rewrite E in Hlen. simpl in Hlen.
      destruct chunks; [reflexivity |]. simpl in Hlen. lia.
  - unfold chunk_subtitle. rewrite Hc. unfold py_div.
    destruct (Nat.max (length chunks) 1) as [| m] eqn:E; [lia |].
    rewrite of_len_succ_nonzero. reflexivity.
Qed.

(** The chunks of a subtitle share its interval evenly: they carry the
    chunks of its text in order, each lasts the same fraction of the
    subtitle, the first starts where the subtitle starts, each next one
    starts where the one before ends, and the last ends where the
    subtitle ends.  A subtitle whose text has no word gives no chunk.
    The division by the number of chunks never raises. *)
Theorem chunk_subtitle_tiles (sub_start sub_end : Q) (text : pystr) :
  exists chunks out,
    chunk_text text 3 = Some chunks
    /\ chunk_subtitle ((sub_start, sub_end), text) = Some out
    /\ map snd out = chunks
    /\ Forall (fun '((a, b), _) =>
                 b - a == (sub_end - sub_start) / of_len (length chunks)) out
    /\ match out with
       | [] => split text = []
       | _ :: _ => tiles sub_start sub_end out
       end.
Proof.
  destruct (chunk_subtitle_returns sub_start sub_end text)
    as [chunks [Hc [Hempty Hout]]].
  eexists chunks, _. split; [exact Hc |]. split; [exact Hout |].
  unfold enumerate. split; [apply timed_texts |].
  destruct chunks as [| c chunks].
  - split; [constructor | now apply Hempty].
  - assert (Hmax : Nat.max (length (c :: chunks)) 1 = length (c :: chunks))
      by (simpl; lia).
    rewrite Hmax. set (k := length (c :: chunks)).
    set (d := (sub_end - sub_start) / of_len k).
    assert (Hk : ~ of_len k == 0).
    { intros E. apply Qeq_bool_iff in E. unfold k in E. simpl length in E.
      rewrite of_len_succ_nonzero in E. discriminate. }
    split.
    + apply Forall_forall. intros [[a b] t] Hin.
      apply (timed_In sub_start d (c :: chunks)) in Hin.
      destruct Hin as [idx [_ [_ ->]]]. ring.
    + pose proof (timed_tiles sub_start d (c :: chunks) 0) as Ht.
      apply (tiles_from _ sub_start) in Ht; [| change (of_len 0) with 0; ring].
      apply (tiles_to _ _ sub_end) in Ht.
      * exact Ht.
      * cbn [Nat.add]. fold k. unfold d. field. exact Hk.
Qed.

(** ** The subtitles of a clip *)

Lemma chunked_subtitles_returns (subs : list subtitle) :
  exists track,
    chunked_subtitles subs = Some track
    /\ forall x, In x track ->
         exists sub out,
           In sub subs /\ chunk_subtitle sub = Some out /\ In x out.
Proof.
  induction subs as [| [[s e] t] subs [track [Ht Hin]]].
  - exists []. split; [reflexivity | contradiction].
  - destruct (chunk_subtitle_returns s e t) as [chunks [_ [_ Hout]]].
    eexists. cbn [chunked_subtitles]. rewrite Hout, Ht.
    split; [reflexivity |].
    intros x Hx. apply in_app_or in Hx. destruct Hx as [Hx | Hx].
    + exists ((s, e), t). eexists. split; [now left |]. split; [exact Hout | exact Hx].
    + destruct (Hin x Hx) as [sub [out [Hsub Hrest]]].
      exists sub, out. split; [now right | exact Hrest].
Qed.

Lemma chunk_nonempty (text : pystr) (chunks : list pystr) (chunk : pystr) :
  chunk_text text 3 = Some chunks -> In chunk chunks -> chunk <> [].
Proof.
  intros Hc Hin. destruct (chunk_text_runs text 3 eq_refl) as [chunks' [Hc' [_ [Hall _]]]].
  rewrite Hc in Hc'. inversion Hc'; subst chunks'.
  rewrite Forall_forall in Hall. specialize (Hall chunk Hin).
  intros ->. simpl in Hall. lia.
Qed.

(** In exact arithmetic, on a transcript whose segments end no earlier
    than they start, [add_subtitles] computes its subtitles without
    raising, and every one of them lies inside the clip: it starts at or
    after the start of the clip, ends no earlier than it starts and no
    later than the clip, and its text is not empty.  The times are the
    rationals the code's expressions denote; in floating point the sum
    that gives the end of a subtitle's last chunk is rounded and can pass
    the end of the clip by a rounding error. *)
Theorem subtitle_track_within_clip
  (transcript_data : Transcript) (start_time end_time : Q)
  (well_formed :
     Forall (fun s => seg_start s <= seg_end s) (get_segments transcript_data)) :
  exists track,
    subtitle_track transcript_data start_time end_time = Some track
    /\ Forall (fun '((a, b), t) =>
                 0 <= a /\ a <= b /\ b <= end_time - start_time /\ t <> [])
         track.
Proof.
  unfold subtitle_track.
  destruct (chunked_subtitles_returns
              (clip_subtitles transcript_data start_time end_time))
    as [track [Ht Hin]].
  exists track. split; [exact Ht |].
  apply Forall_forall. intros [[a b] t] Hx.
  destruct (Hin _ Hx) as [[[s e] txt] [out [Hsub [Hout Hxo]]]].
  unfold clip_subtitles in Hsub. apply in_flat_map in Hsub.
  destruct Hsub as [segment [Hseg Hsub]].
  destruct (Qle_bool start_time (seg_start segment)
            && Qle_bool (seg_end segment) end_time) eqn:Hclip;
    [| contradiction].
  destruct Hsub as [Hsub | []]. inversion Hsub; subst s e txt. clear Hsub.
  apply andb_true_iff in Hclip. destruct Hclip as [Hlo Hhi].
  apply Qle_bool_iff in Hlo, Hhi.
  rewrite Forall_forall in well_formed. specialize (well_formed _ Hseg).
  destruct (chunk_subtitle_returns (seg_start segment - start_time)
              (seg_end segment - start_time) (strip (seg_text segment)))
    as [chunks [Hc [_ Hout']]].
  rewrite Hout' in Hout. inversion Hout; subst out. clear Hout.
  assert (Htext : In t chunks).
  { apply (in_map snd) in Hxo. unfold enumerate in Hxo.
    now rewrite timed_texts in Hxo. }
  apply timed_In in Hxo. destruct Hxo as [idx [Hidx [Ha Hb]]].
  assert (Hmax : Nat.max (length chunks) 1 = length chunks) by lia.
  rewrite Hmax in Ha, Hb.
  set (k := length chunks) in *.
  set (d := (seg_end segment - start_time - (seg_start segment - start_time))
            / of_len k) in *.
  assert (Hk : 0 < of_len k).
  { apply Qlt_le_trans with (of_len 1); [reflexivity |].
    apply of_len_monotone. lia. }
  assert (Hd : 0 <= d).
  { unfold d, Qdiv. apply Qmult_le_0_compat; [lra |].
    apply Qinv_le_0_compat. lra. }
  assert (Hkd : of_len k * d
                == seg_end segment - start_time - (seg_start segment - start_time)).
  { unfold d. field. lra. }
  assert (Hidx0 : 0 <= of_len idx) by apply of_len_nonneg.
  assert (Hidx1 : of_len idx + 1 <= of_len k).
  { rewrite <- of_len_succ. apply of_len_monotone. lia. }
  subst a b. repeat split.
  - nra.
  - lra.
  - nra.
  - now apply (chunk_nonempty (strip (seg_text segment)) chunks).
Qed.

Lemma subtitle_track_within_clip_witness :
  exists track,
    subtitle_track {| segments_key := Some Samples.scenario |} 0 45 = Some track
    /\ Forall (fun '((a, b), t) =>
                 0 <= a /\ a <= b /\ b <= 45 - 0 /\ t <> [])
         track.
Proof.
  assert (H : Forall (fun s => seg_start s <= seg_end s)
                (get_segments {| segments_key := Some Samples.scenario |})).
  { repeat constructor; discriminate. }
  exact (subtitle_track_within_clip
           {| segments_key := Some Samples.scenario |} 0 45 H).
Defined.

(** ** The segments of a merged candidate are subtitled *)

Lemma sorted_app_inv {A : Type} (R : A -> A -> Prop) (l1 l2 : list A) :
  StronglySorted R (l1 ++ l2) ->
  StronglySorted R l1 /\ StronglySorted R l2
  /\ forall x y, In x l1 -> In y l2 -> R x y.
Proof.
  induction l1 as [| a l1 IH]; intros H.
  - repeat split; [constructor | exact H | contradiction].
  - simpl in H. inversion H as [| ? ? Hs Hall]; subst.
    destruct (IH Hs) as [H1 [H2 H12]]. rewrite Forall_forall in Hall.
    repeat split.
    + constructor; [exact H1 |]. apply Forall_forall. intros x Hx.
      apply Hall, in_or_app. now left.
    + exact H2.
    + intros x y [-> | Hx] Hy; [| now apply H12].
      apply Hall, in_or_app. now right.
Qed.

Lemma sorted_group {A : Type} (R : A -> A -> Prop) (groups : list (list A))
  (g : list A) :
  StronglySorted R (concat groups) -> In g groups -> StronglySorted R g.
Proof.
  intros Hs Hin. apply in_split in Hin. destruct Hin as [l1 [l2 ->]].
  rewrite concat_app in Hs. simpl in Hs.
  apply sorted_app_inv in Hs. destruct Hs as [_ [Hs _]].
  now apply sorted_app_inv in Hs.
Qed.

(** On a transcript in time order (no segment starts or ends before an
    earlier one), every candidate of the merger is the span of a group of
    consecutive segments, and [add_subtitles], called on the span of the
    candidate, keeps a subtitle for each segment of the group, with the
    segment's stripped text and its times counted from the start of the
    candidate. *)
Theorem merged_segments_are_subtitled
  (segments : list Segment) (target_duration : Q)
  (ordered : StronglySorted in_order segments) :
  Forall (fun c =>
    exists group,
      group_span group = [c]
      /\ (exists before after, segments = before ++ group ++ after)
      /\ Forall (fun s =>
           In ((seg_start s - seg_start c, seg_end s - seg_start c),
               strip (seg_text s))
              (clip_subtitles {| segments_key := Some segments |}
                 (seg_start c) (seg_end c))) group)
    (_combine_segments segments target_duration).
Proof.
  destruct (combine_segments_groups segments target_duration)
    as [groups [Hcat [_ Hout]]].
  rewrite Hout. apply Forall_forall. intros c Hc.
  unfold long_spans in Hc. apply filter_In in Hc. destruct Hc as [Hc _].
  apply in_flat_map in Hc. destruct Hc as [g [Hg Hspan]].
  destruct g as [| first rest]; [contradiction |].
  destruct Hspan as [<- | []].
  exists (first :: rest). split; [reflexivity |]. split.
  { apply in_split in Hg. destruct Hg as [l1 [l2 ->]].
    exists (concat l1), (concat l2). rewrite <- Hcat, concat_app. reflexivity. }
  assert (Hsorted : StronglySorted in_order (first :: rest)).
  { apply (sorted_group in_order groups); [now rewrite Hcat | exact Hg]. }
  assert (Hsub : forall s, In s (first :: rest) -> In s segments).
  { intros s Hs. rewrite <- Hcat. apply in_concat. now exists (first :: rest). }
  assert (Hfirst : forall s, In s (first :: rest) -> seg_start first <= seg_start s).
  { intros s [<- | Hs]; [apply Qle_refl |].
    inversion Hsorted as [| ? ? _ Hall]; subst.
    rewrite Forall_forall in Hall. now destruct (Hall s Hs). }
  assert (Hlast : forall s, In s (first :: rest) ->
                            seg_end s <= seg_end (last (first :: rest) first)).
  { destruct (exists_last (l := first :: rest) ltac:(discriminate))
      as [l' [a Ha]].
    rewrite Ha, last_last. rewrite Ha in Hsorted.
    apply sorted_app_inv in Hsorted. destruct Hsorted as [_ [_ H12]].
    intros s Hs. apply in_app_or in Hs. destruct Hs as [Hs | [<- | []]].
    - destruct (H12 s a Hs); [now left | assumption].
    - apply Qle_refl. }
  apply Forall_forall. intros s Hs. cbn [seg_start seg_end].
  unfold clip_subtitles. apply in_flat_map. exists s.
  split; [cbn [get_segments segments_key]; now apply Hsub |].
  rewrite (proj2 (Qle_bool_iff _ _) (Hfirst s Hs)).
  rewrite (proj2 (Qle_bool_iff _ _) (Hlast s Hs)).
  now left.
Qed.

Lemma merged_segments_are_subtitled_witness :
  Forall (fun c =>
    exists group,
      group_span group = [c]
      /\ (exists before after, Samples.scenario = before ++ group ++ after)
      /\ Forall (fun s =>
           In ((seg_start s - seg_start c, seg_end s - seg_start c),
               strip (seg_text s))
              (clip_subtitles {| segments_key := Some Samples.scenario |}
                 (seg_start c) (seg_end c))) group)
    (_combine_segments Samples.scenario 30).
Proof.
  assert (H1 : StronglySorted in_order Samples.scenario).
  { repeat constructor; discriminate. }
  exact (merged_segments_are_subtitled Samples.scenario 30 H1).
Defined.

(** ** The pipeline *)

Lemma py_slice_prefix {A : Type} (l : list A) (n : Z) :
  py_slice l 0 n
  = firstn (Z.to_nat (if (0 <=? n)%Z
                      then Z.min n (Z.of_nat (length l))
                      else Z.max 0 (Z.of_nat (length l) + n))) l.
Proof.
  unfold py_slice. rewrite (slice_bound_nonneg _ 0) by lia.
  rewrite Z.min_l by lia. cbn [Z.to_nat skipn]. rewrite Nat.sub_0_r.
  f_equal. f_equal. unfold slice_bound.
  destruct (Z.leb_spec 0 n) as [Hn | Hn].
  - destruct (Z.ltb_spec n 0); [lia |]. cbv zeta.
    destruct (Z.ltb_spec n 0); [lia |].
    destruct (Z.ltb_spec (Z.of_nat (length l)) n); lia.
  - destruct (Z.ltb_spec n 0); [| lia]. cbv zeta.
    destruct (Z.ltb_spec (n + Z.of_nat (length l)) 0); [lia |].
    destruct (Z.ltb_spec (Z.of_nat (length l)) (n + Z.of_nat (length l))); lia.
Qed.

(** [process_pipeline] renders the entries of the ranking from the top, in
    order: [num_clips] of them when there are that many, all of them
    otherwise, never more than 10, each for a span of 10 to 60 seconds.
    A negative [num_clips] does not mean none: the slice then leaves out
    that many entries from the bottom of the ranking. *)
Theorem process_pipeline_clips
  (polarity : pystr -> Q) (np_sqrt : Q -> Q)
  (spectral_centroid : list Q -> Z -> list Q)
  (zero_crossing_rate : list Q -> list Q)
  (combine_videos : Q -> Q -> pystr)
  (add_subtitles : pystr -> Transcript -> Q -> Q -> pystr)
  (transcript_data : Transcript) (y : list Q) (sr : Z) (num_clips : Z) :
  exists ranked clips rest,
    analyze_engagement polarity np_sqrt spectral_centroid zero_crossing_rate
      transcript_data y sr = Ok ranked
    /\ ranked = clips ++ rest
    /\ process_pipeline polarity np_sqrt spectral_centroid zero_crossing_rate
         combine_videos add_subtitles transcript_data y sr num_clips
       = Ok (map (fun c => add_subtitles
                             (combine_videos (start_time c) (end_time c))
                             transcript_data (start_time c) (end_time c))
                 clips)
    /\ Z.of_nat (length clips)
       = (if (0 <=? num_clips)%Z
          then Z.min num_clips (Z.of_nat (length ranked))
          else Z.max 0 (Z.of_nat (length ranked) + num_clips))
    /\ (length clips <= 10)%nat
    /\ Forall (fun c => 10 <= end_time c - start_time c <= 60) clips.
Proof.
  pose proof (analyze_engagement_returns polarity np_sqrt spectral_centroid
                zero_crossing_rate transcript_data y sr) as Hret.
  set (ranked := match get_segments transcript_data with
                 | [] => []
                 | _ :: _ => _
                 end) in Hret.
  assert (Hlen : (length ranked <= 10)%nat).
  { unfold ranked. destruct (get_segments transcript_data); [simpl; lia |].
    rewrite length_firstn. lia. }
  assert (Hspan : Forall (fun c => 10 <= end_time c - start_time c <= 60) ranked).
  { unfold ranked. destruct (get_segments transcript_data) as [| s0 segs];
      [constructor |].
    apply Forall_forall. intros c Hc. apply selected_in_pool in Hc.
    destruct Hc as [Hs Hin]. apply pool_origin in Hin.
    destruct Hin as [segment [-> _]].
    unfold is_suitable, score_candidate in Hs. cbn [duration] in Hs.
    apply andb_true_iff in Hs. destruct Hs as [H10 H60].
    apply Qle_bool_iff in H10, H60. now split. }
  exists ranked, (py_slice ranked 0 num_clips).
  rewrite py_slice_prefix.
  set (k := Z.to_nat _). exists (skipn k ranked).
  split; [exact Hret |]. split; [now rewrite firstn_skipn |]. split.
  { unfold process_pipeline. rewrite Hret. cbn [bind].
    rewrite py_slice_prefix. fold k.
    destruct ranked as [| c ranked']; [now rewrite firstn_nil |]. reflexivity. }
  split.
  { rewrite length_firstn. unfold k.
    destruct (Z.leb_spec 0 num_clips); lia. }
  split.
  { rewrite length_firstn. lia. }
  apply Forall_forall. intros c Hc. rewrite Forall_forall in Hspan.
  apply Hspan. rewrite <- (firstn_skipn k). apply in_or_app. now left.
Qed.

(** ** The prompts *)

Lemma read_url_accepts (lines : list pystr) (url : pystr) (rest : list pystr) :
  read_url lines = Some (url, rest) ->
  exists skipped line,
    lines = skipped ++ line :: rest
    /\ url = strip line
    /\ is_youtube_url url = true.
Proof.
  induction lines as [| l lines IH]; [discriminate |].
  cbn [read_url]. intros H.
  assert (Hskip : read_url lines = Some (url, rest) ->
                  exists skipped line,
                    l :: lines = skipped ++ line :: rest
                    /\ url = strip line /\ is_youtube_url url = true).
  { intros H'. destruct (IH H') as [skipped [line [-> Hrest]]].
    now exists (l :: skipped), line. }
  destruct (strip l) as [| c u] eqn:E; [now apply Hskip |].
  destruct (is_youtube_url (c :: u)) eqn:Ey; [| now apply Hskip].
  inversion H; subst. exists [], l. now rewrite E.
Qed.

Section PromptFacts.

Variable int_of_str : pystr -> option Z.

Lemma read_num_clips_accepts (lines : list pystr) (n : Z) (rest : list pystr) :
  read_num_clips int_of_str lines = Some (n, rest) ->
  (1 <= n <= 10)%Z
  /\ exists line,
       In line lines /\ strip line <> [] /\ int_of_str (strip line) = Some n.
Proof.
  induction lines as [| l lines IH]; [discriminate |].
  cbn [read_num_clips]. intros H.
  assert (Hskip : read_num_clips int_of_str lines = Some (n, rest) ->
            (1 <= n <= 10)%Z
            /\ exists line,
                 In line (l :: lines) /\ strip line <> []
                 /\ int_of_str (strip line) = Some n).
  { intros H'. destruct (IH H') as [Hn [line [Hin Hline]]].
    split; [exact Hn |]. exists line. split; [now right | exact Hline]. }
  destruct (strip l) as [| c u] eqn:E; [now apply Hskip |].
  destruct (int_of_str (c :: u)) as [m |] eqn:Em; [| now apply Hskip].
  destruct ((1 <=? m) && (m <=? 10))%Z eqn:Er; [| now apply Hskip].
  inversion H; subst. apply andb_true_iff in Er. destruct Er as [H1 H2].
  apply Z.leb_le in H1, H2. split; [lia |].
  exists l. rewrite E. repeat split; [now left | discriminate | exact Em].
Qed.

End PromptFacts.

(** Whatever is typed, when [get_user_input] returns, both URLs are
    answers stripped of whitespace that contain [youtube.com] or
    [youtu.be], and the number of clips is between 1 and 10 and is what
    [int] made of a non-empty answer: the default of 3 that the prompt
    announces for an empty answer is never what is returned. *)
Theorem get_user_input_valid
  (int_of_str : pystr -> option Z) (lines : list pystr)
  (podcast_url gameplay_url : pystr) (num_clips : Z)
  (returned : get_user_input int_of_str lines
              = Some (podcast_url, gameplay_url, num_clips)) :
  (is_youtube_url podcast_url = true /\ trimmed podcast_url)
  /\ (is_youtube_url gameplay_url = true /\ trimmed gameplay_url)
  /\ (1 <= num_clips <= 10)%Z
  /\ exists line,
       In line lines /\ strip line <> []
       /\ int_of_str (strip line) = Some num_clips.
Proof.
  unfold get_user_input in returned.
  destruct (read_url lines) as [[p rest1] |] eqn:E1; [| discriminate].
  destruct (read_url rest1) as [[g rest2] |] eqn:E2; [| discriminate].
  destruct (read_num_clips int_of_str rest2) as [[n rest3] |] eqn:E3;
    [| discriminate].
  inversion returned; subst. clear returned.
  apply read_url_accepts in E1. destruct E1 as [sk1 [l1 [-> [-> Hy1]]]].
  apply read_url_accepts in E2. destruct E2 as [sk2 [l2 [-> [-> Hy2]]]].
  apply read_num_clips_accepts in E3. destruct E3 as [Hn [line [Hin Hline]]].
  split; [split; [exact Hy1 | apply strip_trimmed] |].
  split; [split; [exact Hy2 | apply strip_trimmed] |].
  split; [exact Hn |].
  exists line. split; [| exact Hline].
  apply in_or_app. right. right. apply in_or_app. right. now right.
Qed.

Lemma get_user_input_valid_witness :
  (1 <= 4 <= 10)%Z
  /\ exists line,
       In line [str " https://youtu.be/abc "; str "youtube.com/watch?v=1";
                str ""; str "12"; str " 4 "]
       /\ strip line <> [] /\ digits_int (strip line) = Some 4%Z.
Proof.
  assert (H : get_user_input digits_int
                [str " https://youtu.be/abc "; str "youtube.com/watch?v=1";
                 str ""; str "12"; str " 4 "]
              = Some (str "https://youtu.be/abc", str "youtube.com/watch?v=1",
                      4%Z)) by (vm_compute; reflexivity).
  exact (proj2 (proj2 (get_user_input_valid digits_int _ _ _ _ H))).
Defined.

(** An empty answer to the prompt for the number of clips, or one of
    whitespace only, is passed over like a rejected one: the prompt goes
    on reading, and at the end of the input nothing has been returned. *)
Theorem read_num_clips_skips_blank_answers
  (int_of_str : pystr -> option Z) (blank lines : list pystr)
  (all_blank : Forall (fun line => strip line = []) blank) :
  read_num_clips int_of_str (blank ++ lines) = read_num_clips int_of_str lines
  /\ read_num_clips int_of_str blank = None.
Proof.
  induction all_blank as [| l blank Hl _ [IH1 IH2]]; [now split |].
  cbn [app read_num_clips]. rewrite Hl. now split.
Qed.

Lemma read_num_clips_skips_blank_answers_witness :
  read_num_clips digits_int ([str ""; str "  "] ++ [str "5"])
  = read_num_clips digits_int [str "5"]
  /\ read_num_clips digits_int [str ""; str "  "] = None.
Proof.
  apply (read_num_clips_skips_blank_answers digits_int [str ""; str "  "]).
  repeat constructor.
Defined.

(** ** Durations as text *)

Lemma format_02_below_100 (n : Z) :
  (0 <= n < 100)%Z ->
  length (format_02 n) = 2%nat /\ two_digits (format_02 n) = n.
Proof.
  intros Hn.
  assert (Htable : forallb (fun k =>
                      (length (format_02 (Z.of_nat k)) =? 2)%nat
                      && (two_digits (format_02 (Z.of_nat k)) =? Z.of_nat k)%Z)
                     (seq 0 100) = true) by (vm_compute; reflexivity).
  rewrite forallb_forall in Htable.
  specialize (Htable (Z.to_nat n)). rewrite Z2Nat.id in Htable by lia.
  assert (Hin : In (Z.to_nat n) (seq 0 100)) by (apply in_seq; lia).
  apply Htable in Hin. apply andb_true_iff in Hin. destruct Hin as [H1 H2].
  apply Nat.eqb_eq in H1. apply Z.eqb_eq in H2. now split.
Qed.

Lemma app_inv_tail_length {A : Type} (l1 l2 t1 t2 : list A) :
  l1 ++ t1 = l2 ++ t2 -> length t1 = length t2 -> l1 = l2 /\ t1 = t2.
Proof.
  intros E Hlen.
  assert (Hl : length l1 = length l2).
  { apply (f_equal (@length A)) in E. rewrite !length_app in E. lia. }
  revert l2 E Hl. induction l1 as [| a l1 IH]; intros [| b l2] E Hl;
    try discriminate; [now split |].
  simpl in E. inversion E; subst.
  destruct (IH l2 H1 ltac:(simpl in Hl; lia)) as [-> ->]. now split.
Qed.

Lemma time_fields (seconds : Q) :
  exists hours minutes remSec,
    get_time_format (Some seconds)
    = format_02 hours ++ str ":" ++ format_02 minutes ++ str ":"
      ++ format_02 remSec
    /\ (0 <= minutes < 60)%Z /\ (0 <= remSec < 60)%Z
    /\ (hours * 3600 + minutes * 60 + remSec = py_int seconds)%Z.
Proof.
  exists (py_int seconds / 60 / 60)%Z, ((py_int seconds / 60) mod 60)%Z,
         (py_int seconds mod 60)%Z.
  split; [reflexivity |].
  pose proof (Z.mod_pos_bound (py_int seconds / 60) 60 ltac:(lia)).
  pose proof (Z.mod_pos_bound (py_int seconds) 60 ltac:(lia)).
  pose proof (Z.div_mod (py_int seconds) 60 ltac:(lia)).
  pose proof (Z.div_mod (py_int seconds / 60) 60 ltac:(lia)).
  repeat split; lia.
Qed.

(** The three fields [get_time_format] prints are the hours, minutes and
    seconds of [int(seconds)]: minutes and seconds are between 0 and 59,
    and the fields add up to [int(seconds)], for negative values too
    (the hours are then negative).  [None] gives [Unknown]. *)
Theorem get_time_format_fields (seconds : Q) :
  get_time_format None = str "Unknown"
  /\ getTimeFormat seconds = get_time_format (Some seconds)
  /\ exists hours minutes remSec,
       get_time_format (Some seconds)
       = format_02 hours ++ str ":" ++ format_02 minutes ++ str ":"
         ++ format_02 remSec
       /\ (0 <= minutes < 60)%Z /\ (0 <= remSec < 60)%Z
       /\ (hours * 3600 + minutes * 60 + remSec = py_int seconds)%Z.
Proof.
  split; [reflexivity |]. split; [reflexivity |]. apply time_fields.
Qed.

(** Below a hundred hours the text is [HH:MM:SS], eight characters, and
    it tells the time to the second: two durations with the same text
    have the same whole number of seconds. *)
Theorem get_time_format_injective (a b : Q)
  (a_range : (0 <= py_int a < 360000)%Z)
  (b_range : (0 <= py_int b < 360000)%Z) :
  length (get_time_format (Some a)) = 8%nat
  /\ get_time_format (Some a) <> get_time_format None
  /\ (get_time_format (Some a) = get_time_format (Some b) ->
      py_int a = py_int b).
Proof.
  assert (Hfields : forall x, (0 <= py_int x < 360000)%Z ->
    exists h m s,
      get_time_format (Some x)
      = format_02 h ++ str ":" ++ format_02 m ++ str ":" ++ format_02 s
      /\ (0 <= h < 100)%Z /\ (0 <= m < 100)%Z /\ (0 <= s < 100)%Z
      /\ (h * 3600 + m * 60 + s = py_int x)%Z).
  { intros x Hx.
    destruct (time_fields x) as [h [m [s [E [Hm [Hs Hsum]]]]]].
    exists h, m, s. repeat split; try lia; try exact E. }
  destruct (Hfields a a_range) as [h [m [s [Ea [Hh [Hm [Hs Hsum]]]]]]].
  destruct (Hfields b b_range) as [h' [m' [s' [Eb [Hh' [Hm' [Hs' Hsum']]]]]]].
  destruct (format_02_below_100 h Hh) as [Lh Ph].
  destruct (format_02_below_100 m Hm) as [Lm Pm].
  destruct (format_02_below_100 s Hs) as [Ls Ps].
  destruct (format_02_below_100 h' Hh') as [Lh' Ph'].
  destruct (format_02_below_100 m' Hm') as [Lm' Pm'].
  destruct (format_02_below_100 s' Hs') as [Ls' Ps'].
  assert (Hlen : length (get_time_format (Some a)) = 8%nat).
  { rewrite Ea, !length_app, Lh, Lm, Ls. reflexivity. }
  split; [exact Hlen |]. split.
  { intros E. rewrite E in Hlen. discriminate Hlen. }
  intros E. rewrite Ea, Eb in E.
  apply app_inv_tail_length in E; [| rewrite !length_app, Lm, Ls, Lm', Ls'; reflexivity].
  destruct E as [E1 E].
  rewrite (app_assoc (str ":") (format_02 m)),
          (app_assoc (str ":") (format_02 m')) in E.
  apply app_inv_tail_length in E;
    [| rewrite !length_app, Ls, Ls'; reflexivity].
  destruct E as [E2 E3].
  apply app_inv_head in E2, E3.
  assert (Eh : h = h') by (rewrite <- Ph, E1; exact Ph').
  assert (Em : m = m') by (rewrite <- Pm, E2; exact Pm').
  assert (Es : s = s') by (rewrite <- Ps, E3; exact Ps').
  rewrite <- Hsum, <- Hsum'. now rewrite Eh, Em, Es.
Qed.

Lemma get_time_format_injective_witness :
  length (get_time_format (Some 3725.5)) = 8%nat
  /\ get_time_format (Some 3725.5) <> get_time_format None
  /\ (get_time_format (Some 3725.5) = get_time_format (Some 3725.9) ->
      py_int 3725.5 = py_int 3725.9).
Proof.
  assert (H1 : (0 <= py_int 3725.5 < 360000)%Z)
    by (vm_compute; split; [discriminate | reflexivity]).
  assert (H2 : (0 <= py_int 3725.9 < 360000)%Z)
    by (vm_compute; split; [discriminate | reflexivity]).
  exact (get_time_format_injective 3725.5 3725.9 H1 H2).
Defined.

(** ** The command line *)

Lemma truthy_given (o : option pystr) : truthy o = true -> given o = true.
Proof. now destruct o as [[| c s] |]. Qed.

Lemma py_or_truthy (a b : option pystr) :
  truthy (py_or a b) = true ->
  truthy a = true /\ py_or a b = a \/ truthy a = false /\ truthy b = true
                                      /\ py_or a b = b.
Proof.
  unfold py_or. destruct (truthy a) eqn:E; intros H; [now left | now right].
Qed.

(** A run from the command line never uses two local files: when [main]
    gets as far as fetching its two videos, one of them at least is a
    download from the URL given with [--podcast-youtube] or
    [--gameplay-youtube].  The four other options exclude each other. *)
Theorem main_plan_downloads
  (args : Args) (podcast_from gameplay_from : video_source)
  (planned : main_plan args = Some (Sources podcast_from gameplay_from)) :
  (truthy (podcast_youtube args) = true
   /\ podcast_from = Download (value (podcast_youtube args)))
  \/ (truthy (gameplay_youtube args) = true
      /\ gameplay_from = Download (value (gameplay_youtube args))).
Proof.
  unfold main_plan in planned.
  destruct (parse_args args) as [args' |] eqn:Hparse; [| discriminate].
  unfold parse_args in Hparse.
  destruct (length _ =? 1)%nat eqn:Hone; [| discriminate].
  inversion Hparse; subst args'. clear Hparse. apply Nat.eqb_eq in Hone.
  destruct (interactive args); [discriminate |].
  destruct (negb _ || negb _) eqn:Hmissing; [discriminate |].
  apply orb_false_iff in Hmissing. destruct Hmissing as [Hp Hg].
  apply negb_false_iff in Hp, Hg.
  inversion planned as [[Ep Eg]]. clear planned.
  destruct args as [pu p gu g py gy i]. cbn [podcast_url podcast gameplay_url
    gameplay podcast_youtube gameplay_youtube] in *.
  unfold py_or in *.
  destruct pu as [[| c1 s1] |], p as [[| c2 s2] |], gu as [[| c3 s3] |],
    g as [[| c4 s4] |]; cbn in Hone; try discriminate Hone;
    cbn [truthy] in *;
    destruct (truthy py) eqn:Hpy, (truthy gy) eqn:Hgy;
    cbn [truthy] in *; try discriminate;
    try (left; split; reflexivity); try (right; split; reflexivity).
Qed.

Lemma main_plan_downloads_witness :
  (truthy None = true
   /\ UseFile (str "main_vid.mp4") = Download (value None))
  \/ (truthy (Some (str "https://youtu.be/abc")) = true
      /\ Download (str "https://youtu.be/abc")
         = Download (value (Some (str "https://youtu.be/abc")))).
Proof.
  exact (main_plan_downloads
           {| podcast_url := None; podcast := Some (str "main_vid.mp4");
              gameplay_url := None; gameplay := None;
              podcast_youtube := None;
              gameplay_youtube := Some (str "https://youtu.be/abc");
              interactive := false |}
           (UseFile (str "main_vid.mp4"))
           (Download (str "https://youtu.be/abc")) eq_refl).
Defined.

(** The parser rejects every command line that gives two of
    [--podcast-url], [--podcast], [--gameplay-url] and [--gameplay], so a
    command line with both [--podcast] and [--gameplay] is rejected; and
    it rejects a command line that gives none of them, even with
    [--interactive]. *)
Theorem main_plan_rejects (args : Args) :
  (given (podcast args) = true -> given (gameplay args) = true ->
   main_plan args = None)
  /\ (given (podcast_url args) = false -> given (podcast args) = false ->
      given (gameplay_url args) = false -> given (gameplay args) = false ->
      main_plan args = None).
Proof.
  unfold main_plan, parse_args. split.
  - intros Hp Hg. cbn [filter]. rewrite Hp, Hg.
    destruct (given (podcast_url args)), (given (gameplay_url args));
      reflexivity.
  - intros H1 H2 H3 H4. cbn [filter]. now rewrite H1, H2, H3, H4.
Qed.
